(** * DevDonalds cookbook: a shallow embedding of [devdonalds.py]

    The Flask module keeps a cookbook in an append-only file of JSON lines
    and offers three operations: [parse_handwriting] (name clean-up),
    [create_entry] (validated append) and [summary] (breadth-first
    expansion of a recipe into its base ingredients).  Every function below
    is transcribed from the Python text; the [while] loop of [summary] takes
    a fuel argument that bounds the number of iterations. *)

From Stdlib Require Import String Ascii ZArith NArith Arith Bool Lia.
From Stdlib Require Import List Permutation.
Import ListNotations.

Local Open Scope string_scope.
Local Open Scope Z_scope.
Local Open Scope list_scope.

(* ===================================================================== *)
(** ** Data *)
(* ===================================================================== *)

(** One element of a recipe's ['requiredItems'] list. *)
Record RequiredItem := {
  item_name : string;
  item_quantity : Z
}.

(** One JSON line of the cookbook file.  The Python code works on the
    decoded dictionaries: ['type'] is an arbitrary string until
    [create_entry] has checked it, ['cookTime'] is only read for an
    ingredient and ['requiredItems'] only for a recipe. *)
Record CookbookEntry := {
  type : string;
  name : string;
  cookTime : Z;
  requiredItems : list RequiredItem
}.

(** The cookbook file: absent ([None]) or a sequence of JSON lines. *)
Definition File := option (list CookbookEntry).

(** [get_cookbook]: every line decoded, [[]] on [FileNotFoundError]. *)
Definition get_cookbook (file : File) : list CookbookEntry :=
  match file with
  | Some cookbook => cookbook
  | None => []
  end.

(** [store_cookbook]: the file is opened in mode ['a'], so the line is
    appended and a missing file is created. *)
Definition store_cookbook (file : File) (data : CookbookEntry) : File :=
  Some (get_cookbook file ++ [data]).

(** [look_for_item]: the first entry with that name. *)
Fixpoint look_for_item (nm : string) (cookbook : list CookbookEntry)
  : option CookbookEntry :=
  match cookbook with
  | [] => None
  | item :: rest =>
      if (name item =? nm)%string then Some item else look_for_item nm rest
  end.

(** JSON bodies the two endpoints answer with. *)
Inductive Body :=
| Error (error : string)
| Empty
| Summary (nm : string) (total_cooktime : Z) (ingredients_list : list (string * Z)).

(** A handler either returns a body with an HTTP status or dies on an
    uncaught [KeyError]. *)
Inductive Outcome :=
| Returned (body : Body) (status : Z)
| KeyError (key : string).

(* ===================================================================== *)
(** ** Python containers used by the handlers *)
(* ===================================================================== *)

(** A Python [dict] with string keys: keys are unique and iteration follows
    insertion order, so it is kept as an association list. *)
Section PyDict.
Context {V : Type}.

Definition dict := list (string * V).

Fixpoint dict_get (k : string) (d : dict) : option V :=
  match d with
  | [] => None
  | (k', v) :: d' => if (k' =? k)%string then Some v else dict_get k d'
  end.

(** [d[k] = v]: an existing key keeps its position, a new key goes last. *)
Fixpoint dict_set (k : string) (v : V) (d : dict) : dict :=
  match d with
  | [] => [(k, v)]
  | (k', v') :: d' =>
      if (k' =? k)%string then (k, v) :: d' else (k', v') :: dict_set k v d'
  end.

Fixpoint dict_remove (k : string) (d : dict) : dict :=
  match d with
  | [] => []
  | (k', v) :: d' =>
      if (k' =? k)%string then d' else (k', v) :: dict_remove k d'
  end.

(** [d.pop(k, None)]. *)
Definition dict_pop (k : string) (d : dict) : option V * dict :=
  (dict_get k d, dict_remove k d).

Definition keys (d : dict) : list string := map fst d.
End PyDict.
Arguments dict : clear implicits.

(** [set(xs)] as far as its [len] is concerned: the distinct elements. *)
Definition py_set (xs : list string) : list string := nodup string_dec xs.

(* ===================================================================== *)
(** ** Task 2: [create_entry] *)
(* ===================================================================== *)

Definition create_entry (file : File) (data : CookbookEntry) : Outcome * File :=
  let cookbook := get_cookbook file in
  if negb ((type data =? "recipe")%string || (type data =? "ingredient")%string) then
    (Returned (Error "Invalid type") 400, file)
  else if (type data =? "ingredient")%string && (cookTime data <? 0) then
    (Returned (Error "Invalid cookTime") 400, file)
  else
    let is_present := existsb (fun d => (name d =? name data)%string) cookbook in
    if is_present then
      (Returned (Error "Name already exists") 400, file)
    else if (type data =? "recipe")%string
            && negb (Nat.eqb (length (py_set (map item_name (requiredItems data))))
                             (length (requiredItems data))) then
      (Returned (Error "Required items must have unique names") 400, file)
    else
      (Returned Empty 200, store_cookbook file data).

(** The catalog invariants that [create_entry] is meant to keep. *)
Record catalog_invariants (cookbook : list CookbookEntry) : Prop := {
  names_unique : NoDup (map name cookbook);
  items_unique : forall e, In e cookbook -> type e = "recipe" ->
                           NoDup (map item_name (requiredItems e));
  cookTime_nonneg : forall e, In e cookbook -> type e = "ingredient" ->
                              0 <= cookTime e
}.

(* ===================================================================== *)
(** ** Task 3: [summary] *)
(* ===================================================================== *)

(** The value kept per key of the [ingredients] dictionary. *)
Record Slot := {
  quantity : Z;
  unit_cook_time : Z
}.

(** Body of [for item in current_item['requiredItems']]. *)
Definition add_required_item (popped_item_quantity : Z)
    (st : list string * dict Slot) (item : RequiredItem)
  : list string * dict Slot :=
  let '(queue, ingredients) := st in
  (queue ++ [item_name item],
   match dict_get (item_name item) ingredients with
   | Some slot =>
       dict_set (item_name item)
         {| quantity := quantity slot + popped_item_quantity * item_quantity item;
            unit_cook_time := unit_cook_time slot |} ingredients
   | None =>
       dict_set (item_name item)
         {| quantity := popped_item_quantity * item_quantity item;
            unit_cook_time := 0 |} ingredients
   end).

(** What one iteration of [while queue] leaves behind. *)
Inductive Step :=
| Continue (queue : list string) (ingredients : dict Slot)
| Abort (out : Outcome).

(** One iteration, [current] being [queue.pop(0)] and [queue] the rest. *)
Definition loop_body (cookbook : list CookbookEntry)
    (current : string) (queue : list string) (ingredients : dict Slot) : Step :=
  match look_for_item current cookbook with
  | None => Abort (Returned (Error "Items not in the cookbook") 400)
  | Some current_item =>
      let '(queue, ingredients) :=
        if (type current_item =? "recipe")%string then
          let '(popped_item, ingredients) :=
            dict_pop (name current_item) ingredients in
          let popped_item_quantity :=
            match popped_item with
            | Some slot => quantity slot
            | None => 0
            end in
          fold_left (add_required_item popped_item_quantity)
                    (requiredItems current_item) (queue, ingredients)
        else (queue, ingredients) in
      if (type current_item =? "ingredient")%string then
        match dict_get (name current_item) ingredients with
        | Some slot =>
            Continue queue
              (dict_set (name current_item)
                 {| quantity := quantity slot;
                    unit_cook_time := cookTime current_item |} ingredients)
        | None => Abort (KeyError (name current_item))
        end
      else Continue queue ingredients
  end.

(** [while queue: ...] run for at most [fuel] iterations.  [None] means the
    loop is still running when the fuel is spent; [inl] is the dictionary
    the loop ends with, [inr] a [return] (or exception) from inside it. *)
Fixpoint while_queue (fuel : nat) (cookbook : list CookbookEntry)
    (queue : list string) (ingredients : dict Slot)
  : option (dict Slot + Outcome) :=
  match queue with
  | [] => Some (inl ingredients)
  | current :: queue =>
      match fuel with
      | O => None
      | S fuel =>
          match loop_body cookbook current queue ingredients with
          | Abort out => Some (inr out)
          | Continue queue ingredients =>
              while_queue fuel cookbook queue ingredients
          end
      end
  end.

Definition total_cooktime_of (ingredients : dict Slot) : Z :=
  fold_left (fun acc kv => acc + quantity (snd kv) * unit_cook_time (snd kv))
            ingredients 0.

Definition ingredients_list_of (ingredients : dict Slot) : list (string * Z) :=
  map (fun kv => (fst kv, quantity (snd kv))) ingredients.

Definition summary (fuel : nat) (file : File) (nm : string) : option Outcome :=
  let cookbook := get_cookbook file in
  match look_for_item nm cookbook with
  | None => Some (Returned (Error "Recipe not found") 400)
  | Some target =>
      if negb (type target =? "recipe")%string then
        Some (Returned (Error "Recipe not found") 400)
      else
        let ingredients :=
          dict_set (name target) {| quantity := 1; unit_cook_time := 0 |} [] in
        match while_queue fuel cookbook [name target] ingredients with
        | None => None
        | Some (inr out) => Some out
        | Some (inl ingredients) =>
            Some (Returned (Summary nm (total_cooktime_of ingredients)
                                    (ingredients_list_of ingredients)) 200)
        end
  end.

(** Catalogs used in the examples. *)
Definition ingredient (nm : string) (cook_time : Z) : CookbookEntry :=
  {| type := "ingredient"; name := nm; cookTime := cook_time; requiredItems := [] |}.
Definition recipe (nm : string) (items : list (string * Z)) : CookbookEntry :=
  {| type := "recipe"; name := nm; cookTime := 0;
     requiredItems := map (fun p => {| item_name := fst p; item_quantity := snd p |}) items |}.

Definition cake_catalog : File :=
  Some [ recipe "Cake" [("Flour", 1); ("Dough", 1)];
         recipe "Dough" [("Flour", 2)];
         ingredient "Flour" 1 ].

Definition cyclic_catalog : File :=
  Some [ recipe "A" [("B", 1)]; recipe "B" [("A", 1)] ].


(* ===================================================================== *)
(** ** Task 1: [parse_handwriting] *)
(* ===================================================================== *)

(** A Python [str] is a sequence of Unicode code points. *)
Definition str := list N.

Definition is_upper (c : N) : bool := ((65 <=? c) && (c <=? 90))%N.
Definition is_lower (c : N) : bool := ((97 <=? c) && (c <=? 122))%N.

(** The class [[a-zA-Z]]. *)
Definition is_letter (c : N) : bool := is_upper c || is_lower c.

(** The class [\s] of a [str] pattern, which is also what [str.strip]
    removes: the characters for which [str.isspace] holds. *)
Definition isspace (c : N) : bool :=
  (((9 <=? c) && (c <=? 13)) || ((28 <=? c) && (c <=? 32))
   || (c =? 133) || (c =? 160) || (c =? 5760)
   || ((8192 <=? c) && (c <=? 8202))
   || (c =? 8232) || (c =? 8233) || (c =? 8239) || (c =? 8287)
   || (c =? 12288))%N.

Definition upper (c : N) : N := if is_lower c then (c - 32)%N else c.
Definition lower (c : N) : N := if is_upper c then (c + 32)%N else c.

(** [re.sub(r'[-_]', ' ', s)]. *)
Definition sub_separators (s : str) : str :=
  map (fun c => if ((c =? 45) || (c =? 95))%N then 32%N else c) s.

(** [re.sub(r'[^a-zA-Z\s]', '', s)]. *)
Definition sub_non_letters (s : str) : str :=
  filter (fun c => is_letter c || isspace c) s.

(** [s.title()] on the strings that reach it here: [sub_non_letters] leaves
    only ASCII letters, the cased characters, and whitespace.  A cased
    character is upper-cased unless the character before it is cased, in
    which case it is lower-cased. *)
Fixpoint title_from (previous_is_cased : bool) (s : str) : str :=
  match s with
  | [] => []
  | c :: s' =>
      (if is_letter c then if previous_is_cased then lower c else upper c
       else c) :: title_from (is_letter c) s'
  end.
Definition title (s : str) : str := title_from false s.

(** [re.sub(r'\s+', ' ', s)]: every maximal run of whitespace becomes one
    space; [in_run] tells that the run has already been replaced. *)
Fixpoint sub_spaces_from (in_run : bool) (s : str) : str :=
  match s with
  | [] => []
  | c :: s' =>
      if isspace c then
        if in_run then sub_spaces_from true s'
        else 32%N :: sub_spaces_from true s'
      else c :: sub_spaces_from false s'
  end.
Definition sub_spaces (s : str) : str := sub_spaces_from false s.

Fixpoint lstrip (s : str) : str :=
  match s with
  | [] => []
  | c :: s' => if isspace c then lstrip s' else s
  end.
Definition rstrip (s : str) : str := rev (lstrip (rev s)).
Definition strip (s : str) : str := rstrip (lstrip s).

Definition parse_handwriting (recipeName : str) : option str :=
  let recipeName := sub_separators recipeName in
  let recipeName := sub_non_letters recipeName in
  let recipeName := title recipeName in
  let recipeName := sub_spaces recipeName in
  let recipeName := strip recipeName in
  if Nat.eqb (length recipeName) 0 then None else Some recipeName.

(** Code points of a literal, for examples. *)
Fixpoint codes (s : string) : str :=
  match s with
  | EmptyString => []
  | String a s' => N_of_ascii a :: codes s'
  end.

(* ===================================================================== *)
(** ** Notions used to state what [summary] computes *)
(* ===================================================================== *)

(** The dictionary part of [add_required_item]. *)
Definition add_to_ingredients (popped_item_quantity : Z)
    (ingredients : dict Slot) (item : RequiredItem) : dict Slot :=
  snd (add_required_item popped_item_quantity ([], ingredients) item).

(** Names as [look_for_item] classifies them: a name is expanded by the
    loop when it resolves to a ['recipe'] and is a leaf when it resolves to
    anything else. *)
Definition is_recipe (cookbook : list CookbookEntry) (n : string) : Prop :=
  exists e, look_for_item n cookbook = Some e /\ type e = "recipe".
Definition is_leaf (cookbook : list CookbookEntry) (n : string) : Prop :=
  exists e, look_for_item n cookbook = Some e /\ type e <> "recipe".
Definition is_ingredient (cookbook : list CookbookEntry) (n : string) : Prop :=
  exists e, look_for_item n cookbook = Some e /\ type e = "ingredient".
Definition is_absent (cookbook : list CookbookEntry) (n : string) : Prop :=
  look_for_item n cookbook = None.

(** The cook time the catalog gives one unit of [n]. *)
Definition unit_time (cookbook : list CookbookEntry) (n : string) : Z :=
  match look_for_item n cookbook with
  | Some e => if (type e =? "ingredient")%string then cookTime e else 0
  | None => 0
  end.

(** The quantity the dictionary holds for [n], 0 for a missing key. *)
Definition qty (n : string) (d : dict Slot) : Z :=
  match dict_get n d with
  | Some slot => quantity slot
  | None => 0
  end.

Definition item_pair (item : RequiredItem) : string * Z :=
  (item_name item, item_quantity item).

(** [Reach cookbook n m]: [m] is [n] or is referenced, directly or through
    other recipes, by the recipe [n]. *)
Inductive Reach (cookbook : list CookbookEntry) : string -> string -> Prop :=
| Reach_here : forall n, Reach cookbook n n
| Reach_item : forall n e item m,
    look_for_item n cookbook = Some e ->
    type e = "recipe" ->
    In item (requiredItems e) ->
    Reach cookbook (item_name item) m ->
    Reach cookbook n m.

(** [Expands cookbook work steps]: every name of [work] resolves, and so do
    all names below it; expanding the whole list visits [steps] names. *)
Inductive Expands (cookbook : list CookbookEntry) : list string -> nat -> Prop :=
| Expands_nil : Expands cookbook [] 0
| Expands_leaf : forall n work steps,
    is_leaf cookbook n ->
    Expands cookbook work steps ->
    Expands cookbook (n :: work) (S steps)
| Expands_recipe : forall n e work below steps,
    look_for_item n cookbook = Some e ->
    type e = "recipe" ->
    Expands cookbook (map item_name (requiredItems e)) below ->
    Expands cookbook work steps ->
    Expands cookbook (n :: work) (S (below + steps)).

(** [Demand cookbook x work z]: the demands [work], each a name with a
    multiplier, need [z] units of the leaf [x] in total: the sum over all
    paths from a name of [work] down to [x] of the product of the
    quantities along the path, times the multiplier. *)
Inductive Demand (cookbook : list CookbookEntry) (x : string)
  : list (string * Z) -> Z -> Prop :=
| Demand_nil : Demand cookbook x [] 0
| Demand_leaf : forall n k work z,
    is_leaf cookbook n ->
    Demand cookbook x work z ->
    Demand cookbook x ((n, k) :: work) ((if (n =? x)%string then k else 0) + z)
| Demand_recipe : forall n k e work zn z,
    look_for_item n cookbook = Some e ->
    type e = "recipe" ->
    Demand cookbook x (map item_pair (requiredItems e)) zn ->
    Demand cookbook x work z ->
    Demand cookbook x ((n, k) :: work) (k * zn + z).

(** What holds of the queue and the dictionary at the head of every
    iteration of the loop started by [summary] on [root]. *)
Record loop_inv (cookbook : list CookbookEntry) (root : string)
    (queue : list string) (d : dict Slot) : Prop := {
  inv_keys : NoDup (keys d);
  inv_queue : forall n, In n queue -> In n (keys d) \/ is_recipe cookbook n;
  inv_settled : forall n slot, dict_get n d = Some slot ->
      In n queue \/
      (is_leaf cookbook n /\ unit_cook_time slot = unit_time cookbook n);
  inv_uct : forall n slot, dict_get n d = Some slot ->
      unit_cook_time slot = 0 \/ unit_cook_time slot = unit_time cookbook n;
  inv_reach : forall n, In n queue \/ In n (keys d) -> Reach cookbook root n
}.

(** Quantities stay positive when the catalog's are; [fired] is the set of
    recipes the loop has expanded so far. *)
Record positive_inv (cookbook : list CookbookEntry) (fired : string -> Prop)
    (queue : list string) (d : dict Slot) : Prop := {
  pos_fired : forall n, fired n -> is_recipe cookbook n;
  pos_queue : forall n, In n queue -> In n (keys d) \/ fired n;
  pos_items : forall n e item, fired n -> look_for_item n cookbook = Some e ->
      In item (requiredItems e) -> In (item_name item) (keys d) \/ fired (item_name item);
  pos_qty : forall n slot, dict_get n d = Some slot ->
      0 <= quantity slot /\ (0 < quantity slot \/ fired n)
}.

(** All quantities written in the catalog are positive. *)
Definition quantities_positive (cookbook : list CookbookEntry) : Prop :=
  forall e item, In e cookbook -> In item (requiredItems e) -> 0 < item_quantity item.

(** Two catalogs that differ only in the order of their recipes' items. *)
Definition reordered (cookbook1 cookbook2 : list CookbookEntry) : Prop :=
  Forall2 (fun e1 e2 =>
             type e1 = type e2 /\ name e1 = name e2 /\ cookTime e1 = cookTime e2
             /\ Permutation (requiredItems e1) (requiredItems e2))
          cookbook1 cookbook2.

(** Two outcomes that agree up to the order of the ingredient list. *)
Definition agree (out1 out2 : Outcome) : Prop :=
  match out1, out2 with
  | Returned (Summary n1 t1 l1) s1, Returned (Summary n2 t2 l2) s2 =>
      n1 = n2 /\ t1 = t2 /\ Permutation l1 l2 /\ s1 = s2
  | _, _ => out1 = out2
  end.

(** The answer of [summary] to an item that is not in the cookbook. *)
Definition items_not_in_cookbook : Outcome :=
  Returned (Error "Items not in the cookbook") 400.

(** The [ingredients] dictionary before the loop. *)
Definition initial_ingredients (root : string) : dict Slot :=
  dict_set root {| quantity := 1; unit_cook_time := 0 |} [].

(** The quantities of a list weighted by the catalog's unit cook times. *)
Fixpoint weighted_cook_time (cookbook : list CookbookEntry)
    (l : list (string * Z)) : Z :=
  match l with
  | [] => 0
  | (n, q) :: l' => q * unit_time cookbook n + weighted_cook_time cookbook l'
  end.

(** Quantities held in the dictionary: none negative, and only a name
    that was expanded before may have quantity 0. *)
Definition held_positive (fired : string -> Prop) (d : dict Slot) : Prop :=
  forall n slot, dict_get n d = Some slot ->
                 0 <= quantity slot /\ (0 < quantity slot \/ fired n).

(** Every entry is a recipe or an ingredient, as [create_entry] checks. *)
Definition types_are_valid (cookbook : list CookbookEntry) : Prop :=
  forall e, In e cookbook -> type e = "recipe" \/ type e = "ingredient".

(** The answer of [summary] to a name that is no recipe. *)
Definition recipe_not_found : Outcome :=
  Returned (Error "Recipe not found") 400.

(** A catalog that [create_entry] accepts although a required quantity is 0. *)
Definition zero_catalog : File :=
  Some [ recipe "Cake" [("Flour", 0)]; ingredient "Flour" 2 ].

(** A catalog whose only recipe requires one unit of a name it lacks. *)
Definition catalog_lacking (missing : string) : File :=
  Some [ recipe "Cake" [(missing, 1)] ].

(** Two catalogs listing the same two items in opposite orders. *)
Definition pancake_catalog : File :=
  Some [ recipe "Pancake" [("Flour", 1); ("Milk", 2)];
         ingredient "Flour" 3; ingredient "Milk" 1 ].
Definition pancake_catalog' : File :=
  Some [ recipe "Pancake" [("Milk", 2); ("Flour", 1)];
         ingredient "Flour" 3; ingredient "Milk" 1 ].

(** The four reasons for which a request is turned down. *)
Definition request_rejected (cookbook : list CookbookEntry) (data : CookbookEntry)
  : Prop :=
  (type data <> "recipe" /\ type data <> "ingredient")
  \/ (type data = "ingredient" /\ cookTime data < 0)
  \/ In (name data) (map name cookbook)
  \/ (type data = "recipe" /\ ~ NoDup (map item_name (requiredItems data))).

(** The shape of a cleaned name: capitalised words of ASCII letters, one
    space between two words, nothing before the first or after the last.
    The flag tells whether the previous character was a letter. *)
Inductive Name : bool -> str -> Prop :=
| Name_end : Name true []
| Name_upper : forall c r, is_upper c = true -> Name true r -> Name false (c :: r)
| Name_lower : forall c r, is_lower c = true -> Name true r -> Name true (c :: r)
| Name_space : forall r, Name false r -> Name true (32%N :: r).

(** The same shape before [strip]: the text may stop after a space. *)
Inductive Loose : bool -> str -> Prop :=
| Loose_end : forall b, Loose b []
| Loose_upper : forall c r, is_upper c = true -> Loose true r -> Loose false (c :: r)
| Loose_lower : forall c r, is_lower c = true -> Loose true r -> Loose true (c :: r)
| Loose_space : forall r, Loose false r -> Loose true (32%N :: r).

(** What the [/parse] endpoint answers with: the plain text of its error
    or the JSON object [{'msg': ...}]. *)
Inductive ParseBody :=
| Text (text : string)
| Msg (msg : str).

(** Task 1 helper: [parse].  [input] is the ['input'] member of the request
    body, [None] when the body has no such member, in which case
    [data.get('input', '')] supplies the empty string. *)
Definition parse (input : option str) : ParseBody * Z :=
  let recipe_name := match input with
                     | Some s => s
                     | None => []
                     end in
  match parse_handwriting recipe_name with
  | None => (Text "Invalid recipe name", 400)
  | Some parsed_name => (Msg parsed_name, 200)
  end.

(** The file after a series of [/entry] requests, whatever they answer. *)
Definition create_entries (file : File) (requests : list CookbookEntry) : File :=
  fold_left (fun file data => snd (create_entry file data)) requests file.

(** No quantity written in the catalog is negative. *)
Definition quantities_nonneg (cookbook : list CookbookEntry) : Prop :=
  forall e item, In e cookbook -> In item (requiredItems e) -> 0 <= item_quantity item.

(** No quantity held in the dictionary is negative. *)
Definition held_nonneg (d : dict Slot) : Prop :=
  forall n slot, dict_get n d = Some slot -> 0 <= quantity slot.

(** The dictionary entries of required items: as the [for] loop creates
    them under multiplier 1, and with the unit cook times filled in. *)
Definition pending (items : list RequiredItem) : dict Slot :=
  map (fun item => (item_name item,
                    {| quantity := item_quantity item; unit_cook_time := 0 |}))
      items.
Definition settled (cookbook : list CookbookEntry) (items : list RequiredItem)
  : dict Slot :=
  map (fun item => (item_name item,
                    {| quantity := item_quantity item;
                       unit_cook_time := unit_time cookbook (item_name item) |}))
      items.

(** The pipeline of [parse_handwriting] up to, not including, [strip],
    started in any state of [title] and of the whitespace substitution. *)
Definition cleaned (previous_is_cased in_run : bool) (s : str) : str :=
  sub_spaces_from in_run
    (title_from previous_is_cased (sub_non_letters (sub_separators s))).

(** *** The result of [parse_handwriting], said without its pipeline

    The words of an input are its maximal groups of ASCII letters between
    separators, a separator being a hyphen, an underscore or a whitespace
    character; any other character is dropped and separates nothing.  The
    expected name is these words, each with a capital first letter and the
    others in lower case, joined by single spaces. *)
Definition is_separator (c : N) : bool :=
  ((c =? 45) || (c =? 95))%N || isspace c.

Definition cons_word (w : str) (ws : list str) : list str :=
  match w with
  | [] => ws
  | _ :: _ => w :: ws
  end.

(** The letters before the first separator of [s], and the words after it. *)
Fixpoint scan_words (s : str) : str * list str :=
  match s with
  | [] => ([], [])
  | c :: s' =>
      let (w, ws) := scan_words s' in
      if is_separator c then ([], cons_word w ws)
      else if is_letter c then (c :: w, ws)
      else (w, ws)
  end.

Definition name_words (s : str) : list str :=
  cons_word (fst (scan_words s)) (snd (scan_words s)).

Definition capitalize (w : str) : str :=
  match w with
  | [] => []
  | c :: w' => upper c :: map lower w'
  end.

Fixpoint join_words (ws : list str) : str :=
  match ws with
  | [] => []
  | w :: ws' =>
      w ++ match ws' with
           | [] => []
           | _ :: _ => 32%N :: join_words ws'
           end
  end.

Definition expected_name (s : str) : option str :=
  match name_words s with
  | [] => None
  | ws => Some (join_words (map capitalize ws))
  end.

(* ===================================================================== *)
(** * Properties *)
(* ===================================================================== *)

(** ** Lookups *)

Lemma look_for_item_name nm cookbook e :
  look_for_item nm cookbook = Some e -> name e = nm.
Proof.
  induction cookbook as [|item rest IH]; simpl; [discriminate|].
  destruct (String.eqb_spec (name item) nm) as [Heq|Hne].
  - intros H; injection H as <-; exact Heq.
  - exact IH.
Qed.

Lemma look_for_item_In nm cookbook e :
  look_for_item nm cookbook = Some e -> In e cookbook.
Proof.
  induction cookbook as [|item rest IH]; simpl; [discriminate|].
  destruct (name item =? nm)%string.
  - intros H; injection H as <-; now left.
  - intros H; right; now apply IH.
Qed.


Lemma recipe_not_leaf cookbook n : is_recipe cookbook n -> is_leaf cookbook n -> False.
Proof.
  intros (e & He & Ht) (e' & He' & Ht'); congruence.
Qed.

Lemma resolved_cases cookbook n e :
  look_for_item n cookbook = Some e -> is_recipe cookbook n \/ is_leaf cookbook n.
Proof.
  intros He; destruct (string_dec (type e) "recipe") as [Ht|Ht];
    [left | right]; exists e; auto.
Qed.

(** ** The dictionary *)

Section DictFacts.
Context {V : Type}.
Implicit Types (d : dict V) (k x : string) (v : V).

Lemma dict_get_In_keys k d : In k (keys d) <-> exists v, dict_get k d = Some v.
Proof.
  induction d as [|[k' v'] d IH]; simpl.
  - split; [tauto | intros [v H]; discriminate].
  - destruct (String.eqb_spec k' k) as [->|Hne].
    + split; [exists v'; reflexivity | now left].
    + rewrite IH; split; [intros [H|H]; [contradiction | exact H] | now right].
Qed.

Lemma dict_get_None k d : dict_get k d = None <-> ~ In k (keys d).
Proof.
  rewrite dict_get_In_keys; destruct (dict_get k d) as [v|].
  - split; [discriminate | intros H; exfalso; apply H; now exists v].
  - split; [intros _ [v H]; discriminate | reflexivity].
Qed.

Lemma dict_get_In k v d : dict_get k d = Some v -> In (k, v) d.
Proof.
  induction d as [|[k' v'] d IH]; simpl; [discriminate|].
  destruct (String.eqb_spec k' k) as [->|Hne].
  - intros H; injection H as ->; now left.
  - intros H; right; now apply IH.
Qed.

Lemma In_dict_get k v d : NoDup (keys d) -> In (k, v) d -> dict_get k d = Some v.
Proof.
  induction d as [|[k' v'] d IH]; simpl; [tauto|].
  intros Hnd [H|H].
  - injection H as -> ->; now rewrite String.eqb_refl.
  - inversion Hnd as [|? ? Hnotin Hnd']; subst.
    destruct (String.eqb_spec k' k) as [->|Hne].
    + exfalso; apply Hnotin; apply (in_map fst) in H; exact H.
    + now apply IH.
Qed.

Lemma dict_get_set k v d x :
  dict_get x (dict_set k v d) = if (k =? x)%string then Some v else dict_get x d.
Proof.
  induction d as [|[k' v'] d IH]; simpl.
  - reflexivity.
  - destruct (String.eqb_spec k' k) as [->|Hne]; simpl.
    + destruct (k =? x)%string; reflexivity.
    + rewrite IH; destruct (String.eqb_spec k' x) as [->|Hne'].
      * destruct (String.eqb_spec k x); [congruence | reflexivity].
      * reflexivity.
Qed.

Lemma keys_set k v d x : In x (keys (dict_set k v d)) <-> x = k \/ In x (keys d).
Proof.
  rewrite !dict_get_In_keys, dict_get_set.
  destruct (String.eqb_spec k x) as [->|Hne].
  - split; [now left | intros _; now exists v].
  - split; [now right | intros [H|H]; [congruence | exact H]].
Qed.

Lemma keys_remove_subset k d x : In x (keys (dict_remove k d)) -> In x (keys d).
Proof.
  induction d as [|[k' v'] d IH]; simpl; [tauto|].
  destruct (k' =? k)%string; simpl; tauto.
Qed.

Lemma NoDup_set k v d : NoDup (keys d) -> NoDup (keys (dict_set k v d)).
Proof.
  induction d as [|[k' v'] d IH]; simpl; intros Hnd.
  - constructor; [tauto | constructor].
  - inversion Hnd as [|? ? Hnotin Hnd']; subst.
    destruct (String.eqb_spec k' k) as [->|Hne]; simpl.
    + now constructor.
    + constructor; [|now apply IH].
      fold (keys (dict_set k v d)); rewrite keys_set.
      intros [H|H]; [congruence | contradiction].
Qed.

Lemma NoDup_remove k d : NoDup (keys d) -> NoDup (keys (dict_remove k d)).
Proof.
  induction d as [|[k' v'] d IH]; simpl; intros Hnd; [constructor|].
  inversion Hnd as [|? ? Hnotin Hnd']; subst.
  destruct (k' =? k)%string; simpl; [exact Hnd'|].
  constructor; [|now apply IH].
  intros H; apply Hnotin; eapply keys_remove_subset; exact H.
Qed.

Lemma dict_get_remove k d x :
  NoDup (keys d) ->
  dict_get x (dict_remove k d) = if (k =? x)%string then None else dict_get x d.
Proof.
  induction d as [|[k' v'] d IH]; simpl; intros Hnd.
  - destruct (k =? x)%string; reflexivity.
  - inversion Hnd as [|? ? Hnotin Hnd']; subst.
    destruct (String.eqb_spec k' k) as [->|Hne]; simpl.
    + destruct (String.eqb_spec k x) as [->|Hne']; [|reflexivity].
      now apply dict_get_None.
    + rewrite IH by assumption.
      destruct (String.eqb_spec k' x) as [->|Hne'].
      * destruct (String.eqb_spec k x); [congruence | reflexivity].
      * reflexivity.
Qed.

Lemma keys_remove k d x :
  NoDup (keys d) -> In x (keys (dict_remove k d)) <-> x <> k /\ In x (keys d).
Proof.
  intros Hnd; rewrite !dict_get_In_keys, dict_get_remove by assumption.
  destruct (String.eqb_spec k x) as [->|Hne].
  - split; [intros [v H]; discriminate | tauto].
  - split; [intros H; split; [congruence | exact H] | tauto].
Qed.

Lemma dict_remove_absent k d : ~ In k (keys d) -> dict_remove k d = d.
Proof.
  induction d as [|[k' v'] d IH]; simpl; [reflexivity|].
  intros H; destruct (String.eqb_spec k' k) as [->|Hne]; [tauto|].
  f_equal; apply IH; tauto.
Qed.

End DictFacts.

Lemma dict_set_same {V : Type} k (v : V) (d : dict V) :
  dict_get k d = Some v -> dict_set k v d = d.
Proof.
  induction d as [|[k' v'] d IH]; simpl; [discriminate|].
  destruct (String.eqb_spec k' k) as [->|Hne].
  - intros H; injection H as ->; reflexivity.
  - intros H; f_equal; now apply IH.
Qed.

(** ** The [for] loop over the required items *)

Lemma add_required_item_eq q queue d item :
  add_required_item q (queue, d) item
  = (queue ++ [item_name item], add_to_ingredients q d item).
Proof. reflexivity. Qed.

Lemma fold_add_required_item q items : forall queue d,
  fold_left (add_required_item q) items (queue, d)
  = (queue ++ map item_name items, fold_left (add_to_ingredients q) items d).
Proof.
  induction items as [|item items IH]; intros queue d; cbn [fold_left].
  - now rewrite app_nil_r.
  - rewrite add_required_item_eq, IH; cbn [map].
    now rewrite <- app_assoc.
Qed.

Lemma dict_get_add q d item x :
  dict_get x (add_to_ingredients q d item)
  = if (item_name item =? x)%string then
      Some {| quantity := qty x d + q * item_quantity item;
              unit_cook_time := match dict_get x d with
                                | Some slot => unit_cook_time slot
                                | None => 0
                                end |}
    else dict_get x d.
Proof.
  unfold add_to_ingredients, add_required_item, qty; simpl snd.
  destruct (dict_get (item_name item) d) as [slot|] eqn:Hget;
    rewrite dict_get_set;
    destruct (String.eqb_spec (item_name item) x) as [<-|Hne];
    try reflexivity; now rewrite Hget.
Qed.

Lemma keys_add q d item x :
  In x (keys (add_to_ingredients q d item)) <-> x = item_name item \/ In x (keys d).
Proof.
  rewrite !dict_get_In_keys, dict_get_add.
  destruct (String.eqb_spec (item_name item) x) as [<-|Hne].
  - split; [now left | intros _; eexists; reflexivity].
  - split; [now right | intros [H|H]; [congruence | exact H]].
Qed.

Lemma NoDup_add q d item :
  NoDup (keys d) -> NoDup (keys (add_to_ingredients q d item)).
Proof.
  unfold add_to_ingredients, add_required_item; simpl snd.
  destruct (dict_get (item_name item) d); apply NoDup_set.
Qed.

Lemma keys_add_all q items : forall d x,
  In x (keys (fold_left (add_to_ingredients q) items d))
  <-> In x (map item_name items) \/ In x (keys d).
Proof.
  induction items as [|item items IH]; intros d x; simpl.
  - tauto.
  - rewrite IH, keys_add; split; intros H; intuition congruence.
Qed.

Lemma NoDup_add_all q items : forall d,
  NoDup (keys d) -> NoDup (keys (fold_left (add_to_ingredients q) items d)).
Proof.
  induction items as [|item items IH]; intros d Hnd; simpl; [exact Hnd|].
  apply IH, NoDup_add, Hnd.
Qed.

Lemma dict_get_add_all_other q items : forall d x,
  ~ In x (map item_name items) ->
  dict_get x (fold_left (add_to_ingredients q) items d) = dict_get x d.
Proof.
  induction items as [|item items IH]; intros d x Hx; simpl; [reflexivity|].
  simpl in Hx; rewrite IH by tauto.
  rewrite dict_get_add.
  destruct (String.eqb_spec (item_name item) x); [tauto | reflexivity].
Qed.

Lemma uct_add_all q items : forall d x slot',
  dict_get x (fold_left (add_to_ingredients q) items d) = Some slot' ->
  unit_cook_time slot' = 0
  \/ exists slot, dict_get x d = Some slot /\ unit_cook_time slot' = unit_cook_time slot.
Proof.
  induction items as [|item items IH]; intros d x slot' H; simpl in H.
  - right; now exists slot'.
  - apply IH in H as [H | (slot & Hget & Huct)]; [now left|].
    rewrite dict_get_add in Hget.
    destruct (item_name item =? x)%string.
    + injection Hget as <-; simpl in Huct.
      destruct (dict_get x d) as [slot0|]; [right; now exists slot0 | now left].
    + right; now exists slot.
Qed.

(** ** One iteration of the loop *)

Lemma loop_body_absent cookbook current queue d :
  look_for_item current cookbook = None ->
  loop_body cookbook current queue d
  = Abort (Returned (Error "Items not in the cookbook") 400).
Proof. intros H; unfold loop_body; now rewrite H. Qed.

Lemma loop_body_recipe cookbook current queue d e :
  look_for_item current cookbook = Some e ->
  type e = "recipe" ->
  loop_body cookbook current queue d
  = Continue (queue ++ map item_name (requiredItems e))
             (fold_left (add_to_ingredients (qty current d)) (requiredItems e)
                        (dict_remove current d)).
Proof.
  intros He Ht; unfold loop_body; rewrite He, Ht.
  rewrite (look_for_item_name _ _ _ He).
  change ("recipe" =? "recipe")%string with true.
  change ("recipe" =? "ingredient")%string with false.
  unfold dict_pop; cbv iota beta.
  now rewrite fold_add_required_item.
Qed.

Lemma loop_body_ingredient cookbook current queue d e :
  look_for_item current cookbook = Some e ->
  type e = "ingredient" ->
  loop_body cookbook current queue d
  = match dict_get current d with
    | Some slot =>
        Continue queue (dict_set current {| quantity := quantity slot;
                                            unit_cook_time := cookTime e |} d)
    | None => Abort (KeyError current)
    end.
Proof.
  intros He Ht; unfold loop_body; rewrite He, Ht.
  rewrite (look_for_item_name _ _ _ He).
  change ("ingredient" =? "recipe")%string with false.
  change ("ingredient" =? "ingredient")%string with true.
  reflexivity.
Qed.

Lemma loop_body_other cookbook current queue d e :
  look_for_item current cookbook = Some e ->
  type e <> "recipe" -> type e <> "ingredient" ->
  loop_body cookbook current queue d = Continue queue d.
Proof.
  intros He Hr Hi; unfold loop_body; rewrite He.
  apply String.eqb_neq in Hr, Hi; now rewrite Hr, Hi.
Qed.

Lemma unit_time_ingredient cookbook n e :
  look_for_item n cookbook = Some e -> type e = "ingredient" ->
  unit_time cookbook n = cookTime e.
Proof.
  intros He Ht; unfold unit_time; rewrite He, Ht; reflexivity.
Qed.

Lemma unit_time_other cookbook n e :
  look_for_item n cookbook = Some e -> type e <> "ingredient" ->
  unit_time cookbook n = 0.
Proof.
  intros He Ht; unfold unit_time; rewrite He.
  apply String.eqb_neq in Ht; now rewrite Ht.
Qed.

(** Under the invariant an iteration either reports a missing item, expands
    a recipe, or settles a leaf; it never raises [KeyError]. *)
Lemma loop_body_cases cookbook root current queue d :
  loop_inv cookbook root (current :: queue) d ->
  (is_absent cookbook current
   /\ loop_body cookbook current queue d
      = Abort (Returned (Error "Items not in the cookbook") 400))
  \/ (exists e, look_for_item current cookbook = Some e /\ type e = "recipe"
      /\ loop_body cookbook current queue d
         = Continue (queue ++ map item_name (requiredItems e))
             (fold_left (add_to_ingredients (qty current d)) (requiredItems e)
                        (dict_remove current d)))
  \/ (exists slot, is_leaf cookbook current /\ dict_get current d = Some slot
      /\ loop_body cookbook current queue d
         = Continue queue
             (dict_set current {| quantity := quantity slot;
                                  unit_cook_time := unit_time cookbook current |} d)).
Proof.
  intros Inv.
  destruct (look_for_item current cookbook) as [e|] eqn:He.
  2:{ left; split; [exact He | now apply loop_body_absent]. }
  right.
  destruct (string_dec (type e) "recipe") as [Hr|Hr].
  { left; exists e; repeat split; auto using loop_body_recipe. }
  right.
  assert (Hleaf : is_leaf cookbook current) by (exists e; auto).
  destruct (inv_queue _ _ _ _ Inv current (or_introl eq_refl)) as [Hin|Hrec].
  2:{ exfalso; eauto using recipe_not_leaf. }
  apply dict_get_In_keys in Hin as [slot Hslot].
  exists slot; repeat split; auto.
  destruct (string_dec (type e) "ingredient") as [Hi|Hi].
  - rewrite (loop_body_ingredient _ _ _ _ _ He Hi), Hslot.
    now rewrite (unit_time_ingredient _ _ _ He Hi).
  - rewrite (loop_body_other _ _ _ _ _ He Hr Hi).
    rewrite (unit_time_other _ _ _ He Hi).
    rewrite dict_set_same; [reflexivity|].
    rewrite Hslot; f_equal.
    destruct (inv_uct _ _ _ _ Inv _ _ Hslot) as [H0|H0];
      [|rewrite (unit_time_other _ _ _ He Hi) in H0];
      destruct slot; simpl in *; now subst.
Qed.

(** ** Reachability *)

Lemma Reach_trans cookbook a b c :
  Reach cookbook a b -> Reach cookbook b c -> Reach cookbook a c.
Proof.
  induction 1 as [|n e item m He Ht Hin _ IH]; intros Hbc; [exact Hbc|].
  eapply Reach_item; eauto.
Qed.

Lemma Reach_child cookbook root n e item :
  Reach cookbook root n ->
  look_for_item n cookbook = Some e -> type e = "recipe" ->
  In item (requiredItems e) ->
  Reach cookbook root (item_name item).
Proof.
  intros Hn He Ht Hin; eapply Reach_trans; [exact Hn|].
  eapply Reach_item; eauto; constructor.
Qed.

Lemma Reach_leaf cookbook n m : is_leaf cookbook n -> Reach cookbook n m -> m = n.
Proof.
  intros Hleaf H; destruct H as [|n e item m He Ht]; [reflexivity|].
  exfalso; eapply recipe_not_leaf; [exists e|]; eauto.
Qed.

(** ** The loop invariant *)

Lemma loop_inv_init cookbook root :
  loop_inv cookbook root [root] (initial_ingredients root).
Proof.
  split; simpl.
  - constructor; [tauto | constructor].
  - intros n [<-|[]]; left; now left.
  - intros n slot; destruct (String.eqb_spec root n) as [<-|]; [|discriminate].
    intros _; left; now left.
  - intros n slot; destruct (root =? n)%string; [|discriminate].
    intros H; injection H as <-; now left.
  - intros n [[<-|[]]|[<-|[]]]; constructor.
Qed.

Lemma loop_inv_recipe cookbook root current queue d e :
  loop_inv cookbook root (current :: queue) d ->
  look_for_item current cookbook = Some e -> type e = "recipe" ->
  loop_inv cookbook root (queue ++ map item_name (requiredItems e))
    (fold_left (add_to_ingredients (qty current d)) (requiredItems e)
               (dict_remove current d)).
Proof.
  intros [Hk Hq Hs Hu Hr] He Ht.
  assert (Hrec : is_recipe cookbook current) by (exists e; auto).
  split.
  - apply NoDup_add_all, NoDup_remove, Hk.
  - intros n Hn; rewrite keys_add_all, keys_remove by assumption.
    apply in_app_or in Hn as [Hn|Hn]; [|now left; left].
    destruct (string_dec n current) as [->|Hne]; [now right|].
    destruct (Hq n (or_intror Hn)); [left; right; split; assumption | now right].
  - intros n slot' Hget.
    destruct (in_dec string_dec n (map item_name (requiredItems e))) as [Hin|Hin].
    { left; apply in_or_app; now right. }
    rewrite dict_get_add_all_other in Hget by assumption.
    rewrite dict_get_remove in Hget by assumption.
    destruct (String.eqb_spec current n) as [->|Hne]; [discriminate|].
    destruct (Hs n slot' Hget) as [[Heq|Hn]|Hleaf]; [congruence | | now right].
    left; apply in_or_app; now left.
  - intros n slot' Hget.
    apply uct_add_all in Hget as [H0|(slot & Hget & Heq)]; [now left|].
    rewrite dict_get_remove in Hget by assumption.
    destruct (current =? n)%string; [discriminate|].
    rewrite Heq; eapply Hu; eassumption.
  - intros n Hn.
    assert (Hitem : In n (map item_name (requiredItems e)) -> Reach cookbook root n).
    { intros Hin; apply in_map_iff in Hin as (item & <- & Hin).
      eapply Reach_child; eauto; apply Hr; left; now left. }
    rewrite keys_add_all, keys_remove in Hn by assumption.
    destruct Hn as [Hn|[Hn|[_ Hn]]]; auto.
    apply in_app_or in Hn as [Hn|Hn]; auto.
    apply Hr; left; now right.
Qed.

Lemma loop_inv_leaf cookbook root current queue d slot :
  loop_inv cookbook root (current :: queue) d ->
  is_leaf cookbook current -> dict_get current d = Some slot ->
  loop_inv cookbook root queue
    (dict_set current {| quantity := quantity slot;
                         unit_cook_time := unit_time cookbook current |} d).
Proof.
  intros [Hk Hq Hs Hu Hr] Hleaf Hslot.
  assert (Hcur : In current (keys d)) by (apply dict_get_In_keys; eauto).
  split.
  - apply NoDup_set, Hk.
  - intros n Hn; rewrite keys_set.
    destruct (Hq n (or_intror Hn)); [left; now right | now right].
  - intros n slot'; rewrite dict_get_set.
    destruct (String.eqb_spec current n) as [<-|Hne].
    + intros H; injection H as <-; right; split; [exact Hleaf | reflexivity].
    + intros Hget; destruct (Hs n slot' Hget) as [[Heq|Hn]|H];
        [congruence | now left | now right].
  - intros n slot'; rewrite dict_get_set.
    destruct (String.eqb_spec current n) as [<-|Hne].
    + intros H; injection H as <-; now right.
    + apply Hu.
  - intros n Hn; apply Hr.
    rewrite keys_set in Hn.
    destruct Hn as [Hn|[->|Hn]]; [left; now right | now right | now right].
Qed.

(** ** Running the loop *)

Lemma while_queue_done fuel cookbook d :
  while_queue fuel cookbook [] d = Some (inl d).
Proof. destruct fuel; reflexivity. Qed.

Lemma while_queue_step fuel cookbook current queue d :
  while_queue (S fuel) cookbook (current :: queue) d
  = match loop_body cookbook current queue d with
    | Abort out => Some (inr out)
    | Continue queue' d' => while_queue fuel cookbook queue' d'
    end.
Proof. reflexivity. Qed.

(** More fuel never changes a result. *)
Lemma while_queue_more cookbook fuel : forall fuel' queue d r,
  while_queue fuel cookbook queue d = Some r ->
  (fuel <= fuel')%nat ->
  while_queue fuel' cookbook queue d = Some r.
Proof.
  induction fuel as [|fuel IH]; intros fuel' [|current queue] d r H Hle.
  - now rewrite while_queue_done in *.
  - discriminate.
  - now rewrite while_queue_done in *.
  - destruct fuel' as [|fuel']; [lia|].
    rewrite while_queue_step in *.
    destruct (loop_body cookbook current queue d); [|exact H].
    apply IH; [exact H | lia].
Qed.

Lemma while_queue_deterministic cookbook fuel fuel' queue d r r' :
  while_queue fuel cookbook queue d = Some r ->
  while_queue fuel' cookbook queue d = Some r' ->
  r = r'.
Proof.
  intros H H'.
  apply (while_queue_more _ _ (Nat.max fuel fuel')) in H; [|lia].
  apply (while_queue_more _ _ (Nat.max fuel fuel')) in H'; [|lia].
  congruence.
Qed.

(** The loop never dies on a [KeyError], and the only [return] inside it is
    the one for a missing item. *)
Lemma while_queue_abort cookbook root fuel : forall queue d out,
  loop_inv cookbook root queue d ->
  while_queue fuel cookbook queue d = Some (inr out) ->
  out = Returned (Error "Items not in the cookbook") 400
  /\ exists n, Reach cookbook root n /\ is_absent cookbook n.
Proof.
  induction fuel as [|fuel IH]; intros [|current queue] d out Inv H;
    try discriminate.
  rewrite while_queue_step in H.
  destruct (loop_body_cases _ _ _ _ _ Inv)
    as [[Habs Hb]|[(e & He & Ht & Hb)|(slot & Hleaf & Hslot & Hb)]];
    rewrite Hb in H.
  - injection H as <-; split; [reflexivity|].
    exists current; split; [|exact Habs].
    apply (inv_reach _ _ _ _ Inv); left; now left.
  - eapply IH; [|exact H]; eapply loop_inv_recipe; eauto.
  - eapply IH; [|exact H]; eapply loop_inv_leaf; eauto.
Qed.

(** When the loop ends, every key left is a leaf whose unit cook time is
    the catalog's, and is reachable from the root. *)
Lemma while_queue_final cookbook root fuel : forall queue d final,
  loop_inv cookbook root queue d ->
  while_queue fuel cookbook queue d = Some (inl final) ->
  loop_inv cookbook root [] final.
Proof.
  induction fuel as [|fuel IH]; intros [|current queue] d final Inv H;
    try discriminate.
  - simpl in H; injection H as <-; exact Inv.
  - simpl in H; injection H as <-; exact Inv.
  - rewrite while_queue_step in H.
    destruct (loop_body_cases _ _ _ _ _ Inv)
      as [[Habs Hb]|[(e & He & Ht & Hb)|(slot & Hleaf & Hslot & Hb)]];
      rewrite Hb in H.
    + discriminate.
    + eapply IH; [|exact H]; eapply loop_inv_recipe; eauto.
    + eapply IH; [|exact H]; eapply loop_inv_leaf; eauto.
Qed.

(** ** A missing item is found after finitely many iterations *)

Lemma while_queue_absent_queued cookbook root m : forall before after d,
  is_absent cookbook m ->
  loop_inv cookbook root (before ++ m :: after) d ->
  exists fuel,
    while_queue fuel cookbook (before ++ m :: after) d
    = Some (inr items_not_in_cookbook).
Proof.
  induction before as [|n before IH]; intros after d Habs Inv; simpl app in *.
  - exists 1%nat; rewrite while_queue_step.
    now rewrite (loop_body_absent _ _ _ _ Habs).
  - destruct (loop_body_cases _ _ _ _ _ Inv)
      as [[Hn Hb]|[(e & He & Ht & Hb)|(slot & Hleaf & Hslot & Hb)]].
    + exists 1%nat; now rewrite while_queue_step, Hb.
    + pose proof (loop_inv_recipe _ _ _ _ _ _ Inv He Ht) as Inv'.
      rewrite <- app_assoc in Inv'; simpl app in Inv'.
      destruct (IH _ _ Habs Inv') as [fuel Hf].
      exists (S fuel); rewrite while_queue_step, Hb.
      rewrite <- app_assoc; exact Hf.
    + pose proof (loop_inv_leaf _ _ _ _ _ _ Inv Hleaf Hslot) as Inv'.
      destruct (IH _ _ Habs Inv') as [fuel Hf].
      exists (S fuel); now rewrite while_queue_step, Hb.
Qed.

Lemma while_queue_absent_below cookbook root n m :
  Reach cookbook n m -> is_absent cookbook m ->
  forall before after d,
    loop_inv cookbook root (before ++ n :: after) d ->
    exists fuel,
      while_queue fuel cookbook (before ++ n :: after) d
      = Some (inr items_not_in_cookbook).
Proof.
  induction 1 as [n|n e item m He Ht Hin Hreach IH]; intros Habs.
  - intros before after d; now apply while_queue_absent_queued.
  - induction before as [|n0 before IHb]; intros after d Inv; simpl app in *.
    + pose proof (loop_inv_recipe _ _ _ _ _ _ Inv He Ht) as Inv'.
      destruct (in_split _ _ (in_map item_name _ _ Hin)) as (l1 & l2 & Hsplit).
      rewrite Hsplit, app_assoc in Inv'.
      destruct (IH Habs _ _ _ Inv') as [fuel Hf].
      exists (S fuel).
      rewrite while_queue_step, (loop_body_recipe _ _ _ _ _ He Ht).
      rewrite Hsplit, app_assoc; exact Hf.
    + destruct (loop_body_cases _ _ _ _ _ Inv)
        as [[Hn Hb]|[(e0 & He0 & Ht0 & Hb)|(slot & Hleaf & Hslot & Hb)]].
      * exists 1%nat; now rewrite while_queue_step, Hb.
      * pose proof (loop_inv_recipe _ _ _ _ _ _ Inv He0 Ht0) as Inv'.
        rewrite <- app_assoc in Inv'; simpl app in Inv'.
        destruct (IHb _ _ Inv') as [fuel Hf].
        exists (S fuel); rewrite while_queue_step, Hb.
        rewrite <- app_assoc; exact Hf.
      * pose proof (loop_inv_leaf _ _ _ _ _ _ Inv Hleaf Hslot) as Inv'.
        destruct (IHb _ _ Inv') as [fuel Hf].
        exists (S fuel); now rewrite while_queue_step, Hb.
Qed.

(** ** [summary] in terms of the loop *)

Lemma summary_recipe fuel file root e :
  look_for_item root (get_cookbook file) = Some e -> type e = "recipe" ->
  summary fuel file root
  = match while_queue fuel (get_cookbook file) [root] (initial_ingredients root) with
    | None => None
    | Some (inr out) => Some out
    | Some (inl d) =>
        Some (Returned (Summary root (total_cooktime_of d) (ingredients_list_of d)) 200)
    end.
Proof.
  intros He Ht; unfold summary; rewrite He, Ht.
  rewrite (look_for_item_name _ _ _ He); reflexivity.
Qed.

Lemma summary_not_recipe fuel file root :
  ~ is_recipe (get_cookbook file) root ->
  summary fuel file root = Some (Returned (Error "Recipe not found") 400).
Proof.
  intros Hnot; unfold summary.
  destruct (look_for_item root (get_cookbook file)) as [e|] eqn:He; [|reflexivity].
  destruct (String.eqb_spec (type e) "recipe") as [Ht|Ht]; [|reflexivity].
  exfalso; apply Hnot; now exists e.
Qed.

Lemma summary_deterministic fuel fuel' file root out out' :
  summary fuel file root = Some out ->
  summary fuel' file root = Some out' ->
  out = out'.
Proof.
  unfold summary.
  destruct (look_for_item root (get_cookbook file)) as [e|]; [|congruence].
  destruct (negb (type e =? "recipe")%string); [congruence|].
  destruct (while_queue fuel _ _ _) as [r|] eqn:H; [|discriminate].
  destruct (while_queue fuel' _ _ _) as [r'|] eqn:H'; [|discriminate].
  rewrite (while_queue_deterministic _ _ _ _ _ _ _ H H').
  destruct r'; congruence.
Qed.

Lemma summary_more fuel fuel' file root out :
  summary fuel file root = Some out -> (fuel <= fuel')%nat ->
  summary fuel' file root = Some out.
Proof.
  unfold summary.
  destruct (look_for_item root (get_cookbook file)) as [e|]; [|congruence].
  destruct (negb (type e =? "recipe")%string); [congruence|].
  destruct (while_queue fuel _ _ _) as [r|] eqn:H; [|discriminate].
  intros Hout Hle; now rewrite (while_queue_more _ _ _ _ _ _ H Hle).
Qed.

(** ** The loop ends exactly on the work lists that expand completely *)

Lemma Expands_eq cookbook work steps steps' :
  Expands cookbook work steps -> steps = steps' -> Expands cookbook work steps'.
Proof. now intros H <-. Qed.

Lemma Expands_app_intro cookbook l1 l2 a b :
  Expands cookbook l1 a -> Expands cookbook l2 b -> Expands cookbook (l1 ++ l2) (a + b).
Proof.
  induction 1 as [|n work steps Hleaf _ IH|n e work below steps He Ht Hbelow _ _ IH];
    intros H2; simpl.
  - exact H2.
  - apply Expands_leaf; auto.
  - eapply Expands_eq; [eapply Expands_recipe; eauto | lia].
Qed.

Lemma Expands_app_elim cookbook l1 : forall l2 steps,
  Expands cookbook (l1 ++ l2) steps ->
  exists a b, Expands cookbook l1 a /\ Expands cookbook l2 b /\ steps = (a + b)%nat.
Proof.
  induction l1 as [|n l1 IH]; intros l2 steps H; simpl in H.
  - exists 0%nat, steps; repeat split; [constructor | exact H].
  - inversion H as [|? ? s1 Hleaf Hrest|? e ? below s1 He Ht Hbelow Hrest]; subst.
    + destruct (IH _ _ Hrest) as (a & b & Ha & Hb & ->).
      exists (S a), b; repeat split; [now apply Expands_leaf | exact Hb].
    + destruct (IH _ _ Hrest) as (a & b & Ha & Hb & ->).
      exists (S (below + a)), b; repeat split; [|exact Hb|lia].
      eapply Expands_recipe; eauto.
Qed.

Lemma while_queue_Expands cookbook root fuel : forall queue d final,
  loop_inv cookbook root queue d ->
  while_queue fuel cookbook queue d = Some (inl final) ->
  exists steps, Expands cookbook queue steps /\ (steps <= fuel)%nat.
Proof.
  induction fuel as [|fuel IH]; intros [|current queue] d final Inv H;
    try discriminate; try (exists 0%nat; split; [constructor | lia]).
  rewrite while_queue_step in H.
  destruct (loop_body_cases _ _ _ _ _ Inv)
    as [[Habs Hb]|[(e & He & Ht & Hb)|(slot & Hleaf & Hslot & Hb)]];
    rewrite Hb in H; [discriminate| |].
  - apply IH in H as (steps & Hexp & Hle);
      [|eapply loop_inv_recipe; eauto].
    apply Expands_app_elim in Hexp as (a & b & Ha & Hb' & ->).
    exists (S (b + a)); split; [|lia].
    eapply Expands_recipe; eauto.
  - apply IH in H as (steps & Hexp & Hle);
      [|eapply loop_inv_leaf; eauto].
    exists (S steps); split; [|lia].
    now apply Expands_leaf.
Qed.

Lemma Expands_while_queue cookbook root steps : forall queue d,
  Expands cookbook queue steps ->
  loop_inv cookbook root queue d ->
  exists final, while_queue steps cookbook queue d = Some (inl final).
Proof.
  induction steps as [|steps IH]; intros queue d Hexp Inv.
  - inversion Hexp; subst; exists d; reflexivity.
  - inversion Hexp as [|current work s1 Hleaf Hrest
                       |current e work below s1 He Ht Hbelow Hrest]; subst;
      rewrite while_queue_step;
      destruct (loop_body_cases _ _ _ _ _ Inv)
        as [[Habs Hb]|[(e' & He' & Ht' & Hb)|(slot & Hleaf' & Hslot & Hb)]];
      rewrite Hb.
    + destruct Hleaf as (e & He & _); unfold is_absent in Habs; congruence.
    + exfalso; eapply recipe_not_leaf; [exists e'|]; eauto.
    + apply IH; [exact Hrest | eapply loop_inv_leaf; eauto].
    + unfold is_absent in Habs; congruence.
    + assert (e' = e) by congruence; subst e'.
      apply IH; [|eapply loop_inv_recipe; eauto].
      eapply Expands_eq; [apply Expands_app_intro; eassumption | lia].
    + exfalso; eapply recipe_not_leaf; [exists e|]; eauto.
Qed.

Lemma Expands_perm cookbook l l' :
  Permutation l l' -> forall steps, Expands cookbook l steps -> Expands cookbook l' steps.
Proof.
  induction 1 as [|x l l' _ IH|x y l|l l' l'' _ IH1 _ IH2]; intros steps H.
  - exact H.
  - inversion H; subst; [apply Expands_leaf | eapply Expands_recipe]; eauto.
  - inversion H as [|? ? s1 Hy H1|? ey ? by_ s1 Hey Hty Hby H1]; subst;
      inversion H1 as [|? ? s2 Hx H2|? ex ? bx s2 Hex Htx Hbx H2]; subst.
    + now repeat apply Expands_leaf.
    + eapply Expands_eq;
        [eapply Expands_recipe; eauto; apply Expands_leaf; eauto | lia].
    + eapply Expands_eq;
        [apply Expands_leaf; eauto; eapply Expands_recipe; eauto | lia].
    + eapply Expands_eq;
        [eapply (Expands_recipe _ x ex); eauto;
         eapply (Expands_recipe _ y ey); eauto | lia].
  - auto.
Qed.

(** ** Catalogs that differ in the order of required items *)

Lemma reordered_sym cookbook1 cookbook2 :
  reordered cookbook1 cookbook2 -> reordered cookbook2 cookbook1.
Proof.
  induction 1 as [|e1 e2 l1 l2 (Ht & Hn & Hc & Hp) _ IH]; constructor; auto.
  repeat split; auto using Permutation_sym.
Qed.

Lemma reordered_look_for_item cookbook1 cookbook2 n :
  reordered cookbook1 cookbook2 ->
  match look_for_item n cookbook1, look_for_item n cookbook2 with
  | Some e1, Some e2 =>
      type e1 = type e2 /\ cookTime e1 = cookTime e2
      /\ Permutation (requiredItems e1) (requiredItems e2)
  | None, None => True
  | _, _ => False
  end.
Proof.
  induction 1 as [|e1 e2 l1 l2 (Ht & Hn & Hc & Hp) _ IH]; simpl; [exact I|].
  rewrite <- Hn; destruct (name e1 =? n)%string; auto.
Qed.

Lemma reordered_is_leaf cookbook1 cookbook2 n :
  reordered cookbook1 cookbook2 -> is_leaf cookbook1 n -> is_leaf cookbook2 n.
Proof.
  intros Hre (e1 & He1 & Ht1).
  pose proof (reordered_look_for_item _ _ n Hre) as H; rewrite He1 in H.
  destruct (look_for_item n cookbook2) as [e2|] eqn:He2; [|contradiction].
  exists e2; split; [exact He2|]; destruct H as (Ht & _); congruence.
Qed.

Lemma reordered_recipe cookbook1 cookbook2 n e1 :
  reordered cookbook1 cookbook2 ->
  look_for_item n cookbook1 = Some e1 -> type e1 = "recipe" ->
  exists e2, look_for_item n cookbook2 = Some e2 /\ type e2 = "recipe"
             /\ Permutation (requiredItems e1) (requiredItems e2).
Proof.
  intros Hre He1 Ht1.
  pose proof (reordered_look_for_item _ _ n Hre) as H; rewrite He1 in H.
  destruct (look_for_item n cookbook2) as [e2|] eqn:He2; [|contradiction].
  exists e2; destruct H as (Ht & _ & Hp); repeat split; [congruence | exact Hp].
Qed.

Lemma reordered_is_absent cookbook1 cookbook2 n :
  reordered cookbook1 cookbook2 -> is_absent cookbook1 n -> is_absent cookbook2 n.
Proof.
  unfold is_absent; intros Hre He1.
  pose proof (reordered_look_for_item _ _ n Hre) as H; rewrite He1 in H.
  destruct (look_for_item n cookbook2); [contradiction | reflexivity].
Qed.

Lemma reordered_unit_time cookbook1 cookbook2 n :
  reordered cookbook1 cookbook2 -> unit_time cookbook1 n = unit_time cookbook2 n.
Proof.
  intros Hre; unfold unit_time.
  pose proof (reordered_look_for_item _ _ n Hre) as H.
  destruct (look_for_item n cookbook1) as [e1|], (look_for_item n cookbook2) as [e2|];
    try contradiction; [|reflexivity].
  destruct H as (-> & -> & _); reflexivity.
Qed.

Lemma Expands_reordered cookbook1 cookbook2 work steps :
  reordered cookbook1 cookbook2 ->
  Expands cookbook1 work steps -> Expands cookbook2 work steps.
Proof.
  intros Hre; induction 1 as [|n work steps Hleaf _ IH
                              |n e work below steps He Ht _ IHb _ IH].
  - constructor.
  - apply Expands_leaf; eauto using reordered_is_leaf.
  - destruct (reordered_recipe _ _ _ _ Hre He Ht) as (e2 & He2 & Ht2 & Hp).
    eapply Expands_recipe; eauto.
    eapply Expands_perm; [apply Permutation_map; exact Hp | exact IHb].
Qed.

Lemma Reach_reordered cookbook1 cookbook2 n m :
  reordered cookbook1 cookbook2 -> Reach cookbook1 n m -> Reach cookbook2 n m.
Proof.
  intros Hre; induction 1 as [|n e item m He Ht Hin _ IH]; [constructor|].
  destruct (reordered_recipe _ _ _ _ Hre He Ht) as (e2 & He2 & Ht2 & Hp).
  eapply Reach_item; eauto.
  eapply Permutation_in; eassumption.
Qed.

(** ** Demand: what a list of pending quantities amounts to *)

Lemma dict_get_split {V : Type} k (s : V) (d : dict V) :
  dict_get k d = Some s ->
  exists l1 l2, d = l1 ++ (k, s) :: l2
                /\ dict_remove k d = l1 ++ l2
                /\ forall v, dict_set k v d = l1 ++ (k, v) :: l2.
Proof.
  induction d as [|[k' v'] d IH]; simpl; [discriminate|].
  destruct (String.eqb_spec k' k) as [->|Hne].
  - intros H; injection H as ->; exists [], d; repeat split.
  - intros H; destruct (IH H) as (l1 & l2 & Hd & Hr & Hs).
    exists ((k', v') :: l1), l2; simpl; repeat split; congruence.
Qed.

Lemma dict_set_new {V : Type} k (v : V) (d : dict V) :
  dict_get k d = None -> dict_set k v d = d ++ [(k, v)].
Proof.
  induction d as [|[k' v'] d IH]; simpl; [reflexivity|].
  destruct (k' =? k)%string; [discriminate|].
  intros H; now rewrite IH.
Qed.

Lemma Demand_eq cookbook x work z z' :
  Demand cookbook x work z -> z = z' -> Demand cookbook x work z'.
Proof. now intros H <-. Qed.

Lemma Demand_deterministic cookbook x work z :
  Demand cookbook x work z -> forall z', Demand cookbook x work z' -> z = z'.
Proof.
  induction 1 as [|n k work z Hleaf _ IH|n k e work zn z He Ht _ IHn _ IH];
    intros z' H'.
  - now inversion H'.
  - inversion H' as [|? ? ? z1 _ H1|? ? e1 ? zn1 z1 He1 Ht1 _ _]; subst.
    + now rewrite (IH _ H1).
    + exfalso; eapply recipe_not_leaf; [exists e1|]; eauto.
  - inversion H' as [|? ? ? z1 Hleaf _|? ? e1 ? zn1 z1 He1 Ht1 Hn1 H1]; subst.
    + exfalso; eapply recipe_not_leaf; [exists e|]; eauto.
    + assert (e1 = e) by congruence; subst e1.
      now rewrite (IHn _ Hn1), (IH _ H1).
Qed.

Lemma Demand_app_intro cookbook x l1 l2 z1 z2 :
  Demand cookbook x l1 z1 -> Demand cookbook x l2 z2 ->
  Demand cookbook x (l1 ++ l2) (z1 + z2).
Proof.
  induction 1 as [|n k work z Hleaf _ IH|n k e work zn z He Ht Hn _ _ IH];
    intros H2; simpl app.
  - exact H2.
  - eapply Demand_eq; [apply Demand_leaf; eauto | lia].
  - eapply Demand_eq; [eapply Demand_recipe; eauto | lia].
Qed.

Lemma Demand_app_elim cookbook x l1 : forall l2 z,
  Demand cookbook x (l1 ++ l2) z ->
  exists z1 z2, Demand cookbook x l1 z1 /\ Demand cookbook x l2 z2 /\ z = z1 + z2.
Proof.
  induction l1 as [|[n k] l1 IH]; intros l2 z H; simpl in H.
  - exists 0, z; repeat split; [constructor | exact H].
  - inversion H as [|? ? ? z0 Hleaf Hrest|? ? e ? zn z0 He Ht Hn Hrest]; subst.
    + destruct (IH _ _ Hrest) as (z1 & z2 & H1 & H2 & ->).
      eexists; exists z2; repeat split; [apply Demand_leaf; eauto | exact H2 | lia].
    + destruct (IH _ _ Hrest) as (z1 & z2 & H1 & H2 & ->).
      eexists; exists z2; repeat split; [eapply Demand_recipe; eauto | exact H2 | lia].
Qed.

Lemma Demand_perm cookbook x l l' :
  Permutation l l' -> forall z, Demand cookbook x l z -> Demand cookbook x l' z.
Proof.
  induction 1 as [|p l l' _ IH|p p' l|l l' l'' _ IH1 _ IH2]; intros z H.
  - exact H.
  - inversion H; subst; [apply Demand_leaf | eapply Demand_recipe]; eauto.
  - inversion H as [|? ? ? z1 Hy H1|? ? ey ? zy z1 Hey Hty Hzy H1]; subst;
      inversion H1 as [|? ? ? z2 Hx H2|? ? ex ? zx z2 Hex Htx Hzx H2]; subst.
    + eapply Demand_eq; [repeat apply Demand_leaf; eauto | lia].
    + eapply Demand_eq;
        [eapply Demand_recipe; eauto; apply Demand_leaf; eauto | lia].
    + eapply Demand_eq;
        [apply Demand_leaf; eauto; eapply Demand_recipe; eauto | lia].
    + eapply Demand_eq;
        [eapply (Demand_recipe _ _ _ _ ex); eauto;
         eapply (Demand_recipe _ _ _ _ ey); eauto | lia].
  - auto.
Qed.

(** A demand can be served in two parts. *)
Lemma Demand_split cookbook x n a b work z :
  Demand cookbook x ((n, a + b) :: work) z ->
  Demand cookbook x ((n, a) :: (n, b) :: work) z.
Proof.
  intros H; inversion H as [|? ? ? z0 Hleaf Hrest|? ? e ? zn z0 He Ht Hn Hrest]; subst.
  - eapply Demand_eq; [repeat apply Demand_leaf; eauto|].
    destruct (n =? x)%string; lia.
  - eapply Demand_eq; [repeat (eapply Demand_recipe; eauto) | lia].
Qed.

(** Demands scale with the multiplier of the recipe they come from. *)
Lemma Demand_scale cookbook x q items : forall z,
  Demand cookbook x
    (map (fun item => (item_name item, q * item_quantity item)) items) z ->
  exists z0, Demand cookbook x (map item_pair items) z0 /\ z = q * z0.
Proof.
  induction items as [|item items IH]; intros z H; simpl in H.
  - inversion H; subst; exists 0; split; [constructor | lia].
  - inversion H as [|? ? ? z1 Hleaf Hrest|? ? e ? zn z1 He Ht Hn Hrest]; subst.
    + destruct (IH _ Hrest) as (z0 & H0 & ->).
      eexists; split; [simpl; apply Demand_leaf; eauto|].
      destruct (item_name item =? x)%string; lia.
    + destruct (IH _ Hrest) as (z0 & H0 & ->).
      eexists; split; [simpl; eapply Demand_recipe; eauto | lia].
Qed.

Lemma Demand_reordered cookbook1 cookbook2 x work z :
  reordered cookbook1 cookbook2 ->
  Demand cookbook1 x work z -> Demand cookbook2 x work z.
Proof.
  intros Hre; induction 1 as [|n k work z Hleaf _ IH
                              |n k e work zn z He Ht _ IHn _ IH].
  - constructor.
  - apply Demand_leaf; eauto using reordered_is_leaf.
  - destruct (reordered_recipe _ _ _ _ Hre He Ht) as (e2 & He2 & Ht2 & Hp).
    eapply Demand_recipe; eauto.
    eapply Demand_perm; [apply Permutation_map; exact Hp | exact IHn].
Qed.

Lemma ingredients_list_of_app d1 d2 :
  ingredients_list_of (d1 ++ d2) = ingredients_list_of d1 ++ ingredients_list_of d2.
Proof. apply map_app. Qed.

(** Adding one required item to the dictionary is adding its demand. *)
Lemma Demand_add cookbook x q d item z :
  Demand cookbook x (ingredients_list_of (add_to_ingredients q d item)) z ->
  Demand cookbook x
    (ingredients_list_of d ++ [(item_name item, q * item_quantity item)]) z.
Proof.
  unfold add_to_ingredients, add_required_item; simpl snd.
  destruct (dict_get (item_name item) d) as [slot|] eqn:Hget.
  - destruct (dict_get_split _ _ _ Hget) as (l1 & l2 & Hd & _ & Hset).
    rewrite Hset, Hd, !ingredients_list_of_app; simpl.
    intros H.
    eapply Demand_perm in H; [|symmetry; apply Permutation_middle].
    apply Demand_split in H.
    eapply Demand_perm; [|exact H].
    etransitivity; [apply perm_swap|].
    etransitivity; [|apply Permutation_cons_append].
    apply perm_skip, Permutation_middle.
  - rewrite (dict_set_new _ _ _ Hget), ingredients_list_of_app; auto.
Qed.

Lemma Demand_add_all cookbook x q items : forall d z,
  Demand cookbook x
    (ingredients_list_of (fold_left (add_to_ingredients q) items d)) z ->
  Demand cookbook x
    (ingredients_list_of d
     ++ map (fun item => (item_name item, q * item_quantity item)) items) z.
Proof.
  induction items as [|item items IH]; intros d z H; simpl in *.
  - now rewrite app_nil_r.
  - apply IH in H.
    apply Demand_app_elim in H as (z1 & z2 & H1 & H2 & ->).
    apply Demand_add in H1.
    change (?a :: ?l) with ([a] ++ l); rewrite app_assoc.
    now apply Demand_app_intro.
Qed.

(** ** What the loop leaves in the dictionary *)

Lemma qty_cons n slot (d : dict Slot) x :
  qty x ((n, slot) :: d) = if (n =? x)%string then quantity slot else qty x d.
Proof. unfold qty; simpl; destruct (n =? x)%string; reflexivity. Qed.

Lemma qty_absent x (d : dict Slot) : ~ In x (keys d) -> qty x d = 0.
Proof. intros H; apply dict_get_None in H; unfold qty; now rewrite H. Qed.

(** A dictionary of leaves demands what it holds. *)
Lemma Demand_leaves cookbook x (d : dict Slot) :
  NoDup (keys d) ->
  (forall n, In n (keys d) -> is_leaf cookbook n) ->
  Demand cookbook x (ingredients_list_of d) (qty x d).
Proof.
  induction d as [|[n slot] d IH]; simpl; intros Hnd Hleaf.
  - constructor.
  - inversion Hnd as [|? ? Hnotin Hnd']; subst.
    eapply Demand_eq; [apply Demand_leaf; [|apply IH]; auto|].
    rewrite qty_cons.
    destruct (String.eqb_spec n x) as [->|Hne]; [|reflexivity].
    rewrite qty_absent by assumption; lia.
Qed.

Lemma loop_inv_final_leaf cookbook root final n :
  loop_inv cookbook root [] final -> In n (keys final) ->
  is_leaf cookbook n /\ Reach cookbook root n.
Proof.
  intros Inv Hn; split; [|apply (inv_reach _ _ _ _ Inv); now right].
  apply dict_get_In_keys in Hn as [slot Hslot].
  destruct (inv_settled _ _ _ _ Inv _ _ Hslot) as [[]|[Hleaf _]]; exact Hleaf.
Qed.

Lemma ingredients_list_of_settle current slot v (d : dict Slot) :
  dict_get current d = Some slot -> quantity v = quantity slot ->
  ingredients_list_of (dict_set current v d) = ingredients_list_of d.
Proof.
  intros Hget Hq; destruct (dict_get_split _ _ _ Hget) as (l1 & l2 & Hd & _ & Hset).
  rewrite Hset; rewrite Hd at 1.
  rewrite !ingredients_list_of_app; simpl; now rewrite Hq.
Qed.

(** The quantity the loop ends with for [x] is the demand for [x] of what
    the dictionary holds at any earlier iteration. *)
Lemma while_queue_Demand cookbook root x fuel : forall queue d final,
  loop_inv cookbook root queue d ->
  while_queue fuel cookbook queue d = Some (inl final) ->
  Demand cookbook x (ingredients_list_of d) (qty x final).
Proof.
  assert (Hbase : forall d, loop_inv cookbook root [] d ->
                    Demand cookbook x (ingredients_list_of d) (qty x d)).
  { intros d Inv; apply Demand_leaves; [apply (inv_keys _ _ _ _ Inv)|].
    intros n Hn; eapply loop_inv_final_leaf; eauto. }
  induction fuel as [|fuel IH]; intros [|current queue] d final Inv H;
    try discriminate;
    try (simpl in H; injection H as <-; now apply Hbase).
  rewrite while_queue_step in H.
  destruct (loop_body_cases _ _ _ _ _ Inv)
    as [[Habs Hb]|[(e & He & Ht & Hb)|(slot & Hleaf & Hslot & Hb)]];
    rewrite Hb in H; [discriminate| |].
  - apply IH in H; [|eapply loop_inv_recipe; eauto].
    apply Demand_add_all, Demand_app_elim in H as (z1 & z2 & H1 & H2 & Hz).
    apply Demand_scale in H2 as (z0 & H0 & ->).
    rewrite Hz; unfold qty.
    destruct (dict_get current d) as [slot|] eqn:Hget.
    + destruct (dict_get_split _ _ _ Hget) as (l1 & l2 & Hd & Hrem & _).
      rewrite Hrem, ingredients_list_of_app in H1; rewrite Hd.
      rewrite ingredients_list_of_app; simpl.
      eapply Demand_perm; [apply Permutation_middle|].
      eapply Demand_eq; [exact (Demand_recipe _ _ _ _ _ _ _ _ He Ht H0 H1) | lia].
    + rewrite dict_remove_absent in H1 by now apply dict_get_None.
      eapply Demand_eq; [exact H1 | lia].
  - apply IH in H; [|eapply loop_inv_leaf; eauto].
    now rewrite (ingredients_list_of_settle _ _ _ _ Hslot) in H.
Qed.

(** A leaf that has entered the dictionary stays in it. *)
Lemma while_queue_keeps cookbook root x fuel : forall queue d final,
  loop_inv cookbook root queue d ->
  while_queue fuel cookbook queue d = Some (inl final) ->
  is_leaf cookbook x -> In x (keys d) -> In x (keys final).
Proof.
  induction fuel as [|fuel IH]; intros [|current queue] d final Inv H Hleaf Hx;
    try discriminate; try (simpl in H; injection H as <-; exact Hx).
  rewrite while_queue_step in H.
  destruct (loop_body_cases _ _ _ _ _ Inv)
    as [[Habs Hb]|[(e & He & Ht & Hb)|(slot & Hleaf' & Hslot & Hb)]];
    rewrite Hb in H; [discriminate| |].
  - eapply IH; [eapply loop_inv_recipe; eauto | exact H | exact Hleaf |].
    rewrite keys_add_all, keys_remove by apply (inv_keys _ _ _ _ Inv).
    right; split; [|exact Hx].
    intros ->; eapply recipe_not_leaf; [exists e|]; eauto.
  - eapply IH; [eapply loop_inv_leaf; eauto | exact H | exact Hleaf |].
    rewrite keys_set; now right.
Qed.

(** Every leaf below a queued name ends up in the dictionary. *)
Lemma while_queue_covers cookbook root x fuel : forall queue d final n,
  loop_inv cookbook root queue d ->
  while_queue fuel cookbook queue d = Some (inl final) ->
  In n queue -> Reach cookbook n x -> is_leaf cookbook x ->
  In x (keys final).
Proof.
  induction fuel as [|fuel IH]; intros [|current queue] d final n Inv H Hn Hreach Hleaf;
    try discriminate; try contradiction.
  rewrite while_queue_step in H.
  destruct (loop_body_cases _ _ _ _ _ Inv)
    as [[Habs Hb]|[(e & He & Ht & Hb)|(slot & Hleaf' & Hslot & Hb)]];
    rewrite Hb in H; [discriminate| |].
  - pose proof (loop_inv_recipe _ _ _ _ _ _ Inv He Ht) as Inv'.
    destruct Hn as [<-|Hn].
    + inversion Hreach as [|? e' item ? He' Ht' Hin Hrest]; subst.
      * exfalso; eapply recipe_not_leaf; [exists e|]; eauto.
      * assert (e' = e) by congruence; subst e'.
        eapply (IH _ _ _ (item_name item) Inv' H); eauto.
        apply in_or_app; right; now apply in_map.
    + eapply (IH _ _ _ n Inv' H); eauto.
      apply in_or_app; now left.
  - pose proof (loop_inv_leaf _ _ _ _ _ _ Inv Hleaf' Hslot) as Inv'.
    destruct Hn as [<-|Hn].
    + rewrite (Reach_leaf _ _ _ Hleaf' Hreach) in *.
      eapply while_queue_keeps; eauto.
      rewrite keys_set; now left.
    + eapply (IH _ _ _ n Inv' H); eauto.
Qed.

Lemma total_cooktime_of_acc (d : dict Slot) : forall acc,
  fold_left (fun acc kv => acc + quantity (snd kv) * unit_cook_time (snd kv)) d acc
  = acc + total_cooktime_of d.
Proof.
  unfold total_cooktime_of.
  induction d as [|kv d IH]; intros acc; simpl; [lia|].
  rewrite IH, (IH (quantity _ * _)); lia.
Qed.

Lemma total_cooktime_weighted cookbook (d : dict Slot) :
  (forall n slot, In (n, slot) d -> unit_cook_time slot = unit_time cookbook n) ->
  total_cooktime_of d = weighted_cook_time cookbook (ingredients_list_of d).
Proof.
  induction d as [|[n slot] d IH]; intros Hu; [reflexivity|].
  unfold total_cooktime_of; simpl.
  rewrite total_cooktime_of_acc, IH by (intros; apply Hu; now right).
  rewrite (Hu n slot) by now left.
  reflexivity.
Qed.

Lemma weighted_cook_time_perm cookbook l l' :
  Permutation l l' -> weighted_cook_time cookbook l = weighted_cook_time cookbook l'.
Proof.
  induction 1 as [|[n q] l l' _ IH|[n q] [n' q'] l|l l' l'' _ IH1 _ IH2]; simpl; lia.
Qed.

Lemma weighted_cook_time_reordered cookbook1 cookbook2 l :
  reordered cookbook1 cookbook2 ->
  weighted_cook_time cookbook1 l = weighted_cook_time cookbook2 l.
Proof.
  intros Hre; induction l as [|[n q] l IH]; simpl; [reflexivity|].
  now rewrite IH, (reordered_unit_time _ _ n Hre).
Qed.

Lemma loop_inv_final_time cookbook root final n slot :
  loop_inv cookbook root [] final -> In (n, slot) final ->
  unit_cook_time slot = unit_time cookbook n.
Proof.
  intros Inv Hin.
  apply In_dict_get in Hin; [|apply (inv_keys _ _ _ _ Inv)].
  destruct (inv_settled _ _ _ _ Inv _ _ Hin) as [[]|[_ Hu]]; exact Hu.
Qed.

(** ** Quantities stay positive *)

Lemma held_positive_add fired q d item :
  0 <= q -> 0 < item_quantity item ->
  (q = 0 -> In (item_name item) (keys d) \/ fired (item_name item)) ->
  held_positive fired d ->
  held_positive fired (add_to_ingredients q d item).
Proof.
  intros Hq Hk H0 Hd n slot'; rewrite dict_get_add.
  destruct (String.eqb_spec (item_name item) n) as [<-|Hne]; [|apply Hd].
  intros H; injection H as <-; simpl; unfold qty.
  destruct (dict_get (item_name item) d) as [slot|] eqn:Hget.
  - destruct (Hd _ _ Hget) as [Hge [Hpos|Hf]]; split; try nia; now right.
  - split; [nia|].
    destruct (Z.eq_dec q 0) as [Hz|Hz]; [|left; nia].
    destruct (H0 Hz) as [Hin|Hf]; [|now right].
    apply dict_get_None in Hget; contradiction.
Qed.

Lemma held_positive_add_all fired q items : forall d,
  0 <= q ->
  (forall item, In item items -> 0 < item_quantity item) ->
  (q = 0 -> forall item, In item items ->
            In (item_name item) (keys d) \/ fired (item_name item)) ->
  held_positive fired d ->
  held_positive fired (fold_left (add_to_ingredients q) items d).
Proof.
  induction items as [|item items IH]; intros d Hq Hk H0 Hd; simpl; [exact Hd|].
  apply IH; auto.
  - intros; apply Hk; now right.
  - intros Hz it Hit; rewrite keys_add.
    destruct (H0 Hz it (or_intror Hit)); auto.
  - apply held_positive_add; auto.
    + apply Hk; now left.
    + intros Hz; apply H0; auto; now left.
Qed.

Lemma positive_inv_init cookbook root :
  positive_inv cookbook (fun _ => False) [root] (initial_ingredients root).
Proof.
  split; simpl; try tauto.
  intros n slot; destruct (root =? n)%string; [|discriminate].
  intros H; injection H as <-; simpl; lia.
Qed.

Lemma positive_inv_recipe cookbook root fired current queue d e :
  quantities_positive cookbook ->
  loop_inv cookbook root (current :: queue) d ->
  positive_inv cookbook fired (current :: queue) d ->
  look_for_item current cookbook = Some e -> type e = "recipe" ->
  positive_inv cookbook (fun x => x = current \/ fired x)
    (queue ++ map item_name (requiredItems e))
    (fold_left (add_to_ingredients (qty current d)) (requiredItems e)
               (dict_remove current d)).
Proof.
  intros Hpos Inv [Hf Hq Hi Hd] He Ht.
  pose proof (inv_keys _ _ _ _ Inv) as Hk.
  assert (Hkeep : forall n, In n (keys d) \/ fired n ->
            In n (keys (dict_remove current d)) \/ (n = current \/ fired n)).
  { intros n [Hn|Hn]; [|now right; right].
    destruct (string_dec n current) as [->|Hne]; [right; now left|].
    left; apply keys_remove; auto. }
  split.
  - intros n [->|Hn]; [exists e; auto | now apply Hf].
  - intros n Hn; rewrite keys_add_all.
    apply in_app_or in Hn as [Hn|Hn]; [|now left; left].
    destruct (Hkeep n (Hq n (or_intror Hn))) as [H|H]; auto.
  - intros n e' item Hn He' Hin; rewrite keys_add_all.
    destruct (string_dec n current) as [->|Hne].
    + assert (e' = e) by congruence; subst e'.
      left; left; now apply in_map.
    + destruct Hn as [Hn|Hn]; [contradiction|].
      destruct (Hkeep _ (Hi n e' item Hn He' Hin)) as [H|H]; auto.
  - apply held_positive_add_all.
    + unfold qty; destruct (dict_get current d) as [slot|] eqn:Hget; [|lia].
      apply (Hd _ _ Hget).
    + intros item Hin; eapply Hpos; eauto using look_for_item_In.
    + intros Hz item Hin.
      assert (Hfc : fired current).
      { destruct (Hq current (or_introl eq_refl)) as [Hc|Hc]; [|exact Hc].
        apply dict_get_In_keys in Hc as [slot Hget].
        destruct (Hd _ _ Hget) as [_ [Hlt|Hc]]; [|exact Hc].
        unfold qty in Hz; rewrite Hget in Hz; lia. }
      apply Hkeep; eauto.
    + intros n slot; rewrite dict_get_remove by assumption.
      destruct (current =? n)%string; [discriminate|].
      intros Hget; destruct (Hd _ _ Hget) as [Hge [Hlt|Hfn]]; auto.
Qed.

Lemma positive_inv_leaf cookbook fired current queue d slot v :
  positive_inv cookbook fired (current :: queue) d ->
  dict_get current d = Some slot -> quantity v = quantity slot ->
  positive_inv cookbook fired queue (dict_set current v d).
Proof.
  intros [Hf Hq Hi Hd] Hslot Hv; split.
  - exact Hf.
  - intros n Hn; rewrite keys_set.
    destruct (Hq n (or_intror Hn)); auto.
  - intros n e item Hn He Hin; rewrite keys_set.
    destruct (Hi n e item Hn He Hin); auto.
  - intros n slot'; rewrite dict_get_set.
    destruct (String.eqb_spec current n) as [<-|Hne]; [|apply Hd].
    intros H; injection H as <-; rewrite Hv; apply (Hd _ _ Hslot).
Qed.

Lemma while_queue_positive cookbook root fuel : forall queue d final fired,
  quantities_positive cookbook ->
  loop_inv cookbook root queue d ->
  positive_inv cookbook fired queue d ->
  while_queue fuel cookbook queue d = Some (inl final) ->
  exists fired', positive_inv cookbook fired' [] final.
Proof.
  induction fuel as [|fuel IH]; intros [|current queue] d final fired Hpos Inv Pos H;
    try discriminate;
    try (simpl in H; injection H as <-; now exists fired).
  rewrite while_queue_step in H.
  destruct (loop_body_cases _ _ _ _ _ Inv)
    as [[Habs Hb]|[(e & He & Ht & Hb)|(slot & Hleaf & Hslot & Hb)]];
    rewrite Hb in H; [discriminate| |].
  - eapply IH; [exact Hpos | | | exact H].
    + eapply loop_inv_recipe; eauto.
    + eapply positive_inv_recipe; eauto.
  - eapply IH; [exact Hpos | | | exact H].
    + eapply loop_inv_leaf; eauto.
    + eapply positive_inv_leaf; eauto.
Qed.

Lemma final_quantity_positive cookbook root fired final n slot :
  loop_inv cookbook root [] final ->
  positive_inv cookbook fired [] final ->
  In (n, slot) final -> 0 < quantity slot.
Proof.
  intros Inv Pos Hin.
  assert (Hn : In n (keys final)) by (apply (in_map fst) in Hin; exact Hin).
  apply In_dict_get in Hin; [|apply (inv_keys _ _ _ _ Inv)].
  destruct (pos_qty _ _ _ _ Pos _ _ Hin) as [_ [Hlt|Hf]]; [exact Hlt|].
  exfalso; eapply recipe_not_leaf;
    [eapply pos_fired; eauto | eapply loop_inv_final_leaf; eauto].
Qed.

(** ** [summary] as a whole *)

(** A successful answer comes from a run of the loop that ended. *)
Lemma summary_success fuel file root nm t l s :
  summary fuel file root = Some (Returned (Summary nm t l) s) ->
  is_recipe (get_cookbook file) root
  /\ exists final,
       while_queue fuel (get_cookbook file) [root] (initial_ingredients root)
       = Some (inl final)
       /\ loop_inv (get_cookbook file) root [] final
       /\ nm = root /\ t = total_cooktime_of final
       /\ l = ingredients_list_of final /\ s = 200.
Proof.
  intros H.
  destruct (look_for_item root (get_cookbook file)) as [e|] eqn:He.
  2:{ unfold summary in H; rewrite He in H; discriminate. }
  destruct (string_dec (type e) "recipe") as [Ht|Ht].
  2:{ rewrite summary_not_recipe in H; [discriminate|].
      intros (e' & He' & Ht'); congruence. }
  split; [exists e; auto|].
  rewrite (summary_recipe _ _ _ _ He Ht) in H.
  destruct (while_queue fuel _ _ _) as [[final|out]|] eqn:Hrun; [| |discriminate].
  - exists final; injection H as <- <- <- <-.
    split; [reflexivity|].
    split; [eapply while_queue_final; [apply loop_inv_init | exact Hrun]|].
    repeat split; reflexivity.
  - apply while_queue_abort with (root := root) in Hrun as [-> _];
      [discriminate | apply loop_inv_init].
Qed.

Lemma in_ingredients_list n q (d : dict Slot) :
  In (n, q) (ingredients_list_of d) <->
  exists slot, In (n, slot) d /\ quantity slot = q.
Proof.
  unfold ingredients_list_of; rewrite in_map_iff; split.
  - intros ([n' slot] & Heq & Hin); simpl in Heq; injection Heq as <- <-; eauto.
  - intros (slot & Hin & <-); exists (n, slot); auto.
Qed.

Lemma keys_ingredients_list (d : dict Slot) :
  map fst (ingredients_list_of d) = keys d.
Proof.
  unfold ingredients_list_of, keys; rewrite map_map; reflexivity.
Qed.

Lemma leaf_is_ingredient cookbook n :
  types_are_valid cookbook -> is_leaf cookbook n -> is_ingredient cookbook n.
Proof.
  intros Hv (e & He & Ht); exists e; split; [exact He|].
  destruct (Hv e (look_for_item_In _ _ _ He)); [contradiction | assumption].
Qed.

Lemma final_qty final n slot :
  NoDup (keys final) -> In (n, slot) final -> qty n final = quantity slot.
Proof.
  intros Hnd Hin; unfold qty; now rewrite (In_dict_get _ _ _ Hnd Hin).
Qed.

(** What a successful run returns for [x] is the demand of one [root]. *)
Lemma summary_Demand fuel file root nm t l s x q :
  summary fuel file root = Some (Returned (Summary nm t l) s) ->
  In (x, q) l ->
  Demand (get_cookbook file) x [(root, 1)] q.
Proof.
  intros H Hin.
  apply summary_success in H as (_ & final & Hrun & Inv & _ & _ & -> & _).
  apply in_ingredients_list in Hin as (slot & Hin & <-).
  rewrite <- (final_qty _ _ _ (inv_keys _ _ _ _ Inv) Hin).
  apply (while_queue_Demand _ root x _ _ _ _ (loop_inv_init _ _) Hrun).
Qed.

(** C1. On the catalog with Cake = 1 Flour + 1 Dough, Dough = 2 Flour and
    Flour of cook time 1, [summary] of "Cake" answers 200 with the single
    ingredient ("Flour", 3) and cook time 3, whatever fuel lets it finish;
    in general, the quantity returned for a leaf is the sum, over all paths
    from the root to it, of the products of the quantities on the path. *)
Theorem summary_shared_leaf_accumulates :
  summary 4 cake_catalog "Cake"
  = Some (Returned (Summary "Cake" 3 [("Flour", 3)]) 200)
  /\ (forall fuel out, summary fuel cake_catalog "Cake" = Some out ->
        out = Returned (Summary "Cake" 3 [("Flour", 3)]) 200)
  /\ (forall fuel file root nm t l s x q,
        summary fuel file root = Some (Returned (Summary nm t l) s) ->
        In (x, q) l ->
        Demand (get_cookbook file) x [(root, 1)] q)
  /\ (forall q d item,
        qty (item_name item) (add_to_ingredients q d item)
        = qty (item_name item) d + q * item_quantity item).
Proof.
  assert (Hrun : summary 4 cake_catalog "Cake"
                 = Some (Returned (Summary "Cake" 3 [("Flour", 3)]) 200))
    by reflexivity.
  split; [exact Hrun|]; split; [|split].
  - intros fuel out H; symmetry; eapply summary_deterministic; eauto.
  - intros; eapply summary_Demand; eauto.
  - intros q d item; unfold qty at 1.
    now rewrite dict_get_add, String.eqb_refl.
Qed.

(** C2. When [summary] answers with a summary, its cook time is the sum
    over the returned names of quantity times the catalog's cook time of
    that ingredient, and every key of the final dictionary holds the cook
    time of the ingredient entry it names (none keeps the default). *)
Theorem summary_cook_time fuel file root nm t l s :
  types_are_valid (get_cookbook file) ->
  summary fuel file root = Some (Returned (Summary nm t l) s) ->
  t = weighted_cook_time (get_cookbook file) l
  /\ (forall n q, In (n, q) l ->
        exists e, look_for_item n (get_cookbook file) = Some e
                  /\ type e = "ingredient"
                  /\ unit_time (get_cookbook file) n = cookTime e)
  /\ exists final,
       while_queue fuel (get_cookbook file) [root] (initial_ingredients root)
       = Some (inl final)
       /\ l = ingredients_list_of final
       /\ t = total_cooktime_of final
       /\ forall n slot, In (n, slot) final ->
            exists e, look_for_item n (get_cookbook file) = Some e
                      /\ type e = "ingredient"
                      /\ unit_cook_time slot = cookTime e.
Proof.
  intros Hv H.
  apply summary_success in H as (_ & final & Hrun & Inv & _ & -> & -> & _).
  assert (Hkey : forall n slot, In (n, slot) final ->
            exists e, look_for_item n (get_cookbook file) = Some e
                      /\ type e = "ingredient"
                      /\ unit_cook_time slot = cookTime e
                      /\ unit_time (get_cookbook file) n = cookTime e).
  { intros n slot Hin.
    assert (Hn : In n (keys final)) by (apply (in_map fst) in Hin; exact Hin).
    destruct (loop_inv_final_leaf _ _ _ _ Inv Hn) as [Hleaf _].
    destruct (leaf_is_ingredient _ _ Hv Hleaf) as (e & He & Ht).
    exists e; repeat split; auto.
    - rewrite (loop_inv_final_time _ _ _ _ _ Inv Hin).
      now apply unit_time_ingredient.
    - now apply unit_time_ingredient. }
  split; [|split].
  - apply total_cooktime_weighted.
    intros n slot Hin; eapply loop_inv_final_time; eauto.
  - intros n q Hin; apply in_ingredients_list in Hin as (slot & Hin & _).
    destruct (Hkey _ _ Hin) as (e & He & Ht & _ & Hu); eauto.
  - exists final; repeat split; auto.
    intros n slot Hin; destruct (Hkey _ _ Hin) as (e & He & Ht & Hu & _); eauto.
Qed.

Lemma cake_catalog_types : types_are_valid (get_cookbook cake_catalog).
Proof.
  intros e [<-|[<-|[<-|[]]]]; simpl; auto.
Qed.

Lemma summary_cook_time_witness :
  types_are_valid (get_cookbook cake_catalog)
  /\ summary 4 cake_catalog "Cake"
     = Some (Returned (Summary "Cake" 3 [("Flour", 3)]) 200)
  /\ 3 = weighted_cook_time (get_cookbook cake_catalog) [("Flour", 3)].
Proof.
  split; [exact cake_catalog_types|]; split; [reflexivity|].
  exact (proj1 (summary_cook_time 4 cake_catalog "Cake" "Cake" 3 [("Flour", 3)] 200
                  cake_catalog_types eq_refl)).
Defined.

(** C3, as stated, fails: both entries of [zero_catalog] pass the checks of
    [create_entry], and [summary] of "Cake" then lists "Flour" with
    quantity 0. *)
Lemma summary_zero_quantity_listed :
  create_entry None (recipe "Cake" [("Flour", 0)])
  = (Returned Empty 200, Some [recipe "Cake" [("Flour", 0)]])
  /\ create_entry (Some [recipe "Cake" [("Flour", 0)]]) (ingredient "Flour" 2)
     = (Returned Empty 200, zero_catalog)
  /\ summary 2 zero_catalog "Cake"
     = Some (Returned (Summary "Cake" 0 [("Flour", 0)]) 200).
Proof. repeat split; reflexivity. Qed.

(** C3, amended. On a catalog whose entries are recipes or ingredients and
    whose required quantities are all positive, every pair of a returned
    summary names an ingredient entry, never a recipe, with a quantity
    above 0; the root itself is not listed. *)
Theorem summary_lists_ingredients fuel file root nm t l s :
  types_are_valid (get_cookbook file) ->
  quantities_positive (get_cookbook file) ->
  summary fuel file root = Some (Returned (Summary nm t l) s) ->
  (forall n q, In (n, q) l ->
     is_ingredient (get_cookbook file) n
     /\ ~ is_recipe (get_cookbook file) n
     /\ 0 < q)
  /\ ~ In root (map fst l).
Proof.
  intros Hv Hpos H.
  apply summary_success in H as (Hroot & final & Hrun & Inv & _ & _ & -> & _).
  destruct (while_queue_positive _ root _ _ _ _ _ Hpos (loop_inv_init _ _)
              (positive_inv_init _ _) Hrun) as [fired Pos].
  split.
  - intros n q Hin; apply in_ingredients_list in Hin as (slot & Hin & <-).
    assert (Hn : In n (keys final)) by (apply (in_map fst) in Hin; exact Hin).
    destruct (loop_inv_final_leaf _ _ _ _ Inv Hn) as [Hleaf _].
    repeat split.
    + now apply leaf_is_ingredient.
    + intros Hrec; eapply recipe_not_leaf; eauto.
    + eapply final_quantity_positive; eauto.
  - rewrite keys_ingredients_list; intros Hin.
    destruct (loop_inv_final_leaf _ _ _ _ Inv Hin) as [Hleaf _].
    eapply recipe_not_leaf; eauto.
Qed.

Lemma cake_catalog_quantities : quantities_positive (get_cookbook cake_catalog).
Proof.
  intros e item [<-|[<-|[<-|[]]]]; simpl; intros H;
    repeat (destruct H as [<-|H]; [simpl; lia|]); contradiction.
Qed.

Lemma summary_lists_ingredients_witness :
  types_are_valid (get_cookbook cake_catalog)
  /\ quantities_positive (get_cookbook cake_catalog)
  /\ summary 4 cake_catalog "Cake"
     = Some (Returned (Summary "Cake" 3 [("Flour", 3)]) 200)
  /\ ~ In "Cake" (map fst [("Flour", 3)]).
Proof.
  split; [exact cake_catalog_types|].
  split; [exact cake_catalog_quantities|].
  split; [reflexivity|].
  exact (proj2 (summary_lists_ingredients 4 cake_catalog "Cake" "Cake" 3
                  [("Flour", 3)] 200
                  cake_catalog_types cake_catalog_quantities eq_refl)).
Defined.

(** C4: on the catalog where A requires B and B requires A the loop comes
    back to the state it started from after two iterations, so no amount
    of fuel lets [summary] return. *)
Theorem summary_cycle_never_returns :
  forall fuel, summary fuel cyclic_catalog "A" = None.
Proof.
  assert (Hloop : forall fuel,
    while_queue fuel (get_cookbook cyclic_catalog) ["A"] (initial_ingredients "A") = None
    /\ while_queue fuel (get_cookbook cyclic_catalog) ["B"] (initial_ingredients "B") = None).
  { induction fuel as [|fuel [IHa IHb]]; [split; reflexivity|].
    split; rewrite while_queue_step; [exact IHb | exact IHa]. }
  intros fuel.
  rewrite (summary_recipe fuel cyclic_catalog "A" (recipe "A" [("B", 1)]))
    by reflexivity.
  now rewrite (proj1 (Hloop fuel)).
Qed.

(** C5, as stated, fails: a name that resolves to an ingredient and a name
    that resolves to nothing get the very same answer. *)
Lemma summary_same_error_for_both :
  is_ingredient (get_cookbook cake_catalog) "Flour"
  /\ is_absent (get_cookbook cake_catalog) "Sugar"
  /\ summary 0 cake_catalog "Flour" = Some recipe_not_found
  /\ summary 0 cake_catalog "Sugar" = Some recipe_not_found.
Proof.
  repeat split; try reflexivity.
  exists (ingredient "Flour" 1); split; reflexivity.
Qed.

(** C5, amended. Whenever the requested name does not resolve to a recipe,
    be it absent or an entry of another type, [summary] answers with the
    one error "Recipe not found" and status 400, for any fuel. *)
Theorem summary_root_not_recipe fuel file root :
  is_absent (get_cookbook file) root \/ is_leaf (get_cookbook file) root ->
  summary fuel file root = Some (Returned (Error "Recipe not found") 400).
Proof.
  intros H; apply summary_not_recipe; intros Hrec.
  destruct H as [Habs|Hleaf]; [|eapply recipe_not_leaf; eauto].
  destruct Hrec as (e & He & _); unfold is_absent in Habs; congruence.
Qed.

Lemma summary_root_not_recipe_witness :
  (is_absent (get_cookbook cake_catalog) "Sugar"
   \/ is_leaf (get_cookbook cake_catalog) "Sugar")
  /\ summary 0 cake_catalog "Sugar" = Some (Returned (Error "Recipe not found") 400).
Proof.
  split; [left; reflexivity|].
  exact (summary_root_not_recipe 0 cake_catalog "Sugar" (or_introl eq_refl)).
Defined.

(** C6, as stated, fails: the answer for a missing "Sugar" and the answer
    for a missing "Salt" are the same value, so it carries no name. *)
Lemma summary_missing_name_not_carried :
  summary 2 (catalog_lacking "Sugar") "Cake" = Some items_not_in_cookbook
  /\ summary 2 (catalog_lacking "Salt") "Cake" = Some items_not_in_cookbook
  /\ summary 2 (catalog_lacking "Sugar") "Cake"
     = summary 2 (catalog_lacking "Salt") "Cake".
Proof. repeat split; reflexivity. Qed.

(** C6, amended. If the root is a recipe and some recipe reachable from it
    requires a name the catalog lacks, then with enough fuel [summary]
    answers with the error "Items not in the cookbook" and status 400 (an
    answer that does not name the item), and it never answers anything
    else: no summary is returned. *)
Theorem summary_missing_reference file root r e item :
  is_recipe (get_cookbook file) root ->
  Reach (get_cookbook file) root r ->
  look_for_item r (get_cookbook file) = Some e -> type e = "recipe" ->
  In item (requiredItems e) ->
  is_absent (get_cookbook file) (item_name item) ->
  (exists fuel, summary fuel file root
                = Some (Returned (Error "Items not in the cookbook") 400))
  /\ (forall fuel out, summary fuel file root = Some out ->
        out = Returned (Error "Items not in the cookbook") 400).
Proof.
  intros (e0 & He0 & Ht0) Hr He Ht Hin Habs.
  assert (Hreach : Reach (get_cookbook file) root (item_name item))
    by (eapply Reach_child; eauto).
  destruct (while_queue_absent_below _ root _ _ Hreach Habs [] []
              (initial_ingredients root) (loop_inv_init _ _)) as [fuel Hfuel].
  assert (Hsum : summary fuel file root = Some items_not_in_cookbook).
  { rewrite (summary_recipe _ _ _ _ He0 Ht0).
    simpl app in Hfuel; now rewrite Hfuel. }
  split; [exists fuel; exact Hsum|].
  intros fuel' out H; symmetry; eapply summary_deterministic; eauto.
Qed.

Lemma summary_missing_reference_witness :
  is_recipe (get_cookbook (catalog_lacking "Sugar")) "Cake"
  /\ is_absent (get_cookbook (catalog_lacking "Sugar")) "Sugar"
  /\ exists fuel, summary fuel (catalog_lacking "Sugar") "Cake"
                  = Some (Returned (Error "Items not in the cookbook") 400).
Proof.
  assert (Hrec : is_recipe (get_cookbook (catalog_lacking "Sugar")) "Cake")
    by (exists (recipe "Cake" [("Sugar", 1)]); split; reflexivity).
  split; [exact Hrec|]; split; [reflexivity|].
  exact (proj1 (summary_missing_reference (catalog_lacking "Sugar") "Cake" "Cake"
                  (recipe "Cake" [("Sugar", 1)])
                  {| item_name := "Sugar"; item_quantity := 1 |}
                  Hrec (Reach_here _ _) eq_refl eq_refl (or_introl eq_refl) eq_refl)).
Defined.

(** ** Reordering the required items *)

Lemma final_list_included cookbook1 cookbook2 root fuel1 fuel2 final1 final2 p :
  reordered cookbook1 cookbook2 ->
  while_queue fuel1 cookbook1 [root] (initial_ingredients root) = Some (inl final1) ->
  while_queue fuel2 cookbook2 [root] (initial_ingredients root) = Some (inl final2) ->
  In p (ingredients_list_of final1) -> In p (ingredients_list_of final2).
Proof.
  intros Hre Hrun1 Hrun2 Hin; destruct p as [x q].
  pose proof (while_queue_final _ _ _ _ _ _ (loop_inv_init _ root) Hrun1) as Inv1.
  pose proof (while_queue_final _ _ _ _ _ _ (loop_inv_init _ root) Hrun2) as Inv2.
  apply in_ingredients_list in Hin as (slot1 & Hin1 & <-).
  assert (Hx : In x (keys final1)) by (apply (in_map fst) in Hin1; exact Hin1).
  destruct (loop_inv_final_leaf _ _ _ _ Inv1 Hx) as [Hleaf Hreach].
  assert (Hx2 : In x (keys final2)).
  { eapply (while_queue_covers _ root x _ _ _ _ root (loop_inv_init _ root) Hrun2);
      [now left | eapply Reach_reordered | eapply reordered_is_leaf]; eauto. }
  apply dict_get_In_keys in Hx2 as [slot2 Hget2].
  apply dict_get_In in Hget2.
  apply in_ingredients_list; exists slot2; split; [exact Hget2|].
  rewrite <- (final_qty _ _ _ (inv_keys _ _ _ _ Inv1) Hin1).
  rewrite <- (final_qty _ _ _ (inv_keys _ _ _ _ Inv2) Hget2).
  pose proof (while_queue_Demand _ root x _ _ _ _ (loop_inv_init _ root) Hrun1) as D1.
  pose proof (while_queue_Demand _ root x _ _ _ _ (loop_inv_init _ root) Hrun2) as D2.
  apply (Demand_reordered _ _ _ _ _ Hre) in D1.
  symmetry; eapply Demand_deterministic; eauto.
Qed.

Lemma NoDup_ingredients_list (d : dict Slot) :
  NoDup (keys d) -> NoDup (ingredients_list_of d).
Proof.
  intros H; apply (NoDup_map_inv fst); now rewrite keys_ingredients_list.
Qed.

(** C7. [summary] is a function of the catalog and the name (fuel only
    decides whether the answer is reached), and on two catalogs that differ
    in the order of some recipes' required items it gives answers that
    agree: the same error, or summaries with the same name, the same cook
    time and the same (ingredient, quantity) pairs up to order. *)
Theorem summary_order_independent file1 file2 root fuel1 out1 :
  reordered (get_cookbook file1) (get_cookbook file2) ->
  summary fuel1 file1 root = Some out1 ->
  (exists fuel2 out2, summary fuel2 file2 root = Some out2 /\ agree out1 out2)
  /\ (forall fuel out, summary fuel file1 root = Some out -> out = out1).
Proof.
  intros Hre H.
  split; [|intros fuel out H'; eapply summary_deterministic; eauto].
  destruct (look_for_item root (get_cookbook file1)) as [e1|] eqn:He1.
  2:{ exists 0%nat, recipe_not_found.
      rewrite summary_not_recipe in H by (intros (e & He & _); congruence).
      injection H as <-; split; [|reflexivity].
      apply summary_not_recipe; intros (e & He & _).
      apply (reordered_is_absent _ _ root Hre) in He1.
      unfold is_absent in He1; congruence. }
  destruct (string_dec (type e1) "recipe") as [Ht1|Ht1].
  2:{ exists 0%nat, recipe_not_found.
      rewrite summary_not_recipe in H by (intros (e & He & Ht); congruence).
      injection H as <-; split; [|reflexivity].
      apply summary_not_recipe; intros Hrec.
      eapply recipe_not_leaf; [exact Hrec|].
      eapply reordered_is_leaf; [exact Hre | exists e1; auto]. }
  destruct (reordered_recipe _ _ _ _ Hre He1 Ht1) as (e2 & He2 & Ht2 & _).
  rewrite (summary_recipe _ _ _ _ He1 Ht1) in H.
  destruct (while_queue fuel1 (get_cookbook file1) _ _) as [[final1|out]|] eqn:Hrun1;
    [| |discriminate]; injection H as <-.
  - destruct (while_queue_Expands _ root _ _ _ _ (loop_inv_init _ root) Hrun1)
      as (steps & Hexp & _).
    apply (Expands_reordered _ _ _ _ Hre) in Hexp.
    destruct (Expands_while_queue _ root _ _ (initial_ingredients root) Hexp
                (loop_inv_init _ root)) as [final2 Hrun2].
    exists steps; eexists; split.
    { rewrite (summary_recipe _ _ _ _ He2 Ht2).
      rewrite Hrun2; reflexivity. }
    pose proof (while_queue_final _ _ _ _ _ _ (loop_inv_init _ root) Hrun1) as Inv1.
    pose proof (while_queue_final _ _ _ _ _ _ (loop_inv_init _ root) Hrun2) as Inv2.
    assert (Hperm : Permutation (ingredients_list_of final1)
                                (ingredients_list_of final2)).
    { apply NoDup_Permutation.
      - apply NoDup_ingredients_list, (inv_keys _ _ _ _ Inv1).
      - apply NoDup_ingredients_list, (inv_keys _ _ _ _ Inv2).
      - intros p; split.
        + exact (final_list_included _ _ _ _ _ _ _ p Hre Hrun1 Hrun2).
        + exact (final_list_included _ _ _ _ _ _ _ p (reordered_sym _ _ Hre)
                   Hrun2 Hrun1). }
    simpl; repeat split; auto.
    rewrite (total_cooktime_weighted (get_cookbook file1) final1)
      by (intros; eapply loop_inv_final_time; eauto).
    rewrite (total_cooktime_weighted (get_cookbook file2) final2)
      by (intros; eapply loop_inv_final_time; eauto).
    rewrite (weighted_cook_time_reordered _ _ _ Hre).
    now apply weighted_cook_time_perm.
  - destruct (while_queue_abort _ root _ _ _ _ (loop_inv_init _ root) Hrun1)
      as (-> & m & Hreach & Habs).
    apply (Reach_reordered _ _ _ _ Hre) in Hreach.
    apply (reordered_is_absent _ _ _ Hre) in Habs.
    destruct (while_queue_absent_below _ root _ _ Hreach Habs [] []
                (initial_ingredients root) (loop_inv_init _ _)) as [fuel2 Hfuel].
    exists fuel2, items_not_in_cookbook; split; [|reflexivity].
    rewrite (summary_recipe _ _ _ _ He2 Ht2).
    simpl app in Hfuel; now rewrite Hfuel.
Qed.

Lemma pancake_reordered :
  reordered (get_cookbook pancake_catalog) (get_cookbook pancake_catalog').
Proof.
  repeat constructor; apply Permutation_refl.
Qed.

Lemma summary_order_independent_witness :
  reordered (get_cookbook pancake_catalog) (get_cookbook pancake_catalog')
  /\ summary 3 pancake_catalog "Pancake"
     = Some (Returned (Summary "Pancake" 5 [("Flour", 1); ("Milk", 2)]) 200)
  /\ summary 3 pancake_catalog' "Pancake"
     = Some (Returned (Summary "Pancake" 5 [("Milk", 2); ("Flour", 1)]) 200)
  /\ exists fuel2 out2,
       summary fuel2 pancake_catalog' "Pancake" = Some out2
       /\ agree (Returned (Summary "Pancake" 5 [("Flour", 1); ("Milk", 2)]) 200) out2.
Proof.
  split; [exact pancake_reordered|].
  split; [reflexivity|]; split; [reflexivity|].
  exact (proj1 (summary_order_independent pancake_catalog pancake_catalog'
                  "Pancake" 3 _ pancake_reordered eq_refl)).
Defined.

(* ===================================================================== *)
(** ** [create_entry] *)
(* ===================================================================== *)

Lemma is_present_In nm cookbook :
  existsb (fun d => (name d =? nm)%string) cookbook = true
  <-> In nm (map name cookbook).
Proof.
  rewrite existsb_exists, in_map_iff; split.
  - intros (d & Hin & Heq); apply String.eqb_eq in Heq; eauto.
  - intros (d & Heq & Hin); exists d; split; [exact Hin | now apply String.eqb_eq].
Qed.

Lemma length_py_set_le xs : (length (py_set xs) <= length xs)%nat.
Proof.
  unfold py_set; induction xs as [|x xs IH]; simpl; [lia|].
  destruct (in_dec string_dec x xs); simpl; lia.
Qed.

(** [len(set(xs)) == len(xs)] exactly when [xs] has no duplicate. *)
Lemma length_py_set xs :
  Nat.eqb (length (py_set xs)) (length xs) = true <-> NoDup xs.
Proof.
  rewrite Nat.eqb_eq; split.
  - unfold py_set; induction xs as [|x xs IH]; simpl; [constructor|].
    destruct (in_dec string_dec x xs) as [Hin|Hin]; simpl; intros H.
    + pose proof (length_py_set_le xs); unfold py_set in *; lia.
    + constructor; [exact Hin | apply IH; lia].
  - intros H; unfold py_set; now rewrite nodup_fixed_point.
Qed.

(** [create_entry] turns a request down, leaving the file as it is, exactly
    when one of the four checks fails; otherwise it appends the entry. *)
Lemma create_entry_spec file data :
  (request_rejected (get_cookbook file) data
   /\ exists msg, create_entry file data = (Returned (Error msg) 400, file))
  \/ (~ request_rejected (get_cookbook file) data
      /\ create_entry file data = (Returned Empty 200, store_cookbook file data)).
Proof.
  unfold create_entry, request_rejected.
  destruct (String.eqb_spec (type data) "recipe") as [Hr|Hr];
    destruct (String.eqb_spec (type data) "ingredient") as [Hi|Hi]; simpl;
    try (rewrite Hr in Hi; discriminate).
  - (* a recipe *)
    destruct (existsb _ (get_cookbook file)) eqn:Hp.
    { left; split; [|eauto]; right; right; left; now apply is_present_In. }
    destruct (Nat.eqb _ _) eqn:Hn; simpl.
    + right; split; [|reflexivity].
      rewrite <- (length_map item_name (requiredItems data)) in Hn.
      apply length_py_set in Hn.
      intros [[H _]|[[H _]|[H|[_ H]]]]; try congruence; try contradiction.
      apply is_present_In in H; congruence.
    + left; split; [|eauto]; right; right; right; split; [exact Hr|].
      intros H; apply length_py_set in H; rewrite length_map in H; congruence.
  - (* an ingredient *)
    destruct (Z.ltb_spec (cookTime data) 0) as [Hc|Hc].
    { left; split; [|eauto]; right; left; auto. }
    destruct (existsb _ (get_cookbook file)) eqn:Hp.
    { left; split; [|eauto]; right; right; left; now apply is_present_In. }
    right; split; [|reflexivity].
    intros [[_ H]|[[_ H]|[H|[H _]]]]; try congruence; try lia.
    apply is_present_In in H; congruence.
  - left; split; [|eauto]; left; auto.
Qed.

Lemma catalog_invariants_store cookbook data :
  catalog_invariants cookbook ->
  ~ request_rejected cookbook data ->
  catalog_invariants (cookbook ++ [data]).
Proof.
  intros [Hn Hi Hc] Hok; unfold request_rejected in Hok.
  split.
  - rewrite map_app; simpl.
    apply NoDup_app; [exact Hn | constructor; [tauto | constructor] |].
    intros x Hx [<-|[]]; apply Hok; right; right; left; exact Hx.
  - intros e He Hte; apply in_app_or in He as [He|[<-|[]]]; [now apply Hi|].
    destruct (ListDec.NoDup_dec string_dec (map item_name (requiredItems data)));
      [assumption|].
    exfalso; apply Hok; right; right; right; auto.
  - intros e He Hte; apply in_app_or in He as [He|[<-|[]]]; [now apply Hc|].
    destruct (Z_lt_le_dec (cookTime data) 0); [|assumption].
    exfalso; apply Hok; right; left; auto.
Qed.

(** Only entries typed 'recipe' or 'ingredient' are ever stored. *)
Lemma create_entry_keeps_types file data :
  types_are_valid (get_cookbook file) ->
  types_are_valid (get_cookbook (snd (create_entry file data))).
Proof.
  intros Hv.
  destruct (create_entry_spec file data) as [[_ [msg ->]]|[Hok ->]]; [exact Hv|].
  intros e He; simpl in He; apply in_app_or in He as [He|[<-|[]]]; [now apply Hv|].
  destruct (string_dec (type data) "recipe"); [now left|].
  destruct (string_dec (type data) "ingredient"); [now right|].
  exfalso; apply Hok; left; auto.
Qed.

(** C8. On a cookbook that satisfies the catalog invariants, a request whose
    name is taken, whose type is neither 'recipe' nor 'ingredient', whose
    cook time is negative (ingredient) or whose required items repeat a
    name (recipe) is answered with status 400 and the file is left as it
    is; any accepted request leaves a cookbook that is the old one plus the
    entry and still satisfies the invariants: unique entry names, no
    repeated item name in a recipe, no negative ingredient cook time. *)
Theorem create_entry_keeps_invariants file data :
  catalog_invariants (get_cookbook file) ->
  (request_rejected (get_cookbook file) data ->
     exists msg, create_entry file data = (Returned (Error msg) 400, file))
  /\ (forall body file', create_entry file data = (Returned body 200, file') ->
        get_cookbook file' = get_cookbook file ++ [data]
        /\ catalog_invariants (get_cookbook file'))
  /\ catalog_invariants (get_cookbook (snd (create_entry file data))).
Proof.
  intros Inv.
  destruct (create_entry_spec file data) as [[Hrej [msg Hmsg]]|[Hok Hacc]].
  - split; [intros _; eauto|]; split.
    + intros body file' H; rewrite Hmsg in H; discriminate.
    + rewrite Hmsg; exact Inv.
  - split; [intros Hrej; contradiction|]; split.
    + intros body file' H; rewrite Hacc in H; injection H as <- <-.
      split; [reflexivity|]; now apply catalog_invariants_store.
    + rewrite Hacc; now apply catalog_invariants_store.
Qed.

Lemma cake_catalog_invariants : catalog_invariants (get_cookbook cake_catalog).
Proof.
  split.
  - simpl; repeat constructor; simpl; intuition discriminate.
  - intros e [<-|[<-|[<-|[]]]] _; simpl; repeat constructor; simpl;
      intuition discriminate.
  - intros e [<-|[<-|[<-|[]]]] _; simpl; lia.
Qed.

Lemma create_entry_keeps_invariants_witness :
  catalog_invariants (get_cookbook cake_catalog)
  /\ request_rejected (get_cookbook cake_catalog) (ingredient "Flour" 5)
  /\ exists msg, create_entry cake_catalog (ingredient "Flour" 5)
                 = (Returned (Error msg) 400, cake_catalog).
Proof.
  split; [exact cake_catalog_invariants|].
  assert (Hrej : request_rejected (get_cookbook cake_catalog) (ingredient "Flour" 5))
    by (right; right; left; simpl; auto).
  split; [exact Hrej|].
  exact (proj1 (create_entry_keeps_invariants cake_catalog (ingredient "Flour" 5)
                  cake_catalog_invariants) Hrej).
Defined.

(** C9. [create_entry] either fails one of its checks, answers 400 and
    hands back the file it read, or passes all of them, answers 200 and
    appends the entry; the file changes in no other case. *)
Theorem create_entry_atomic file data :
  (request_rejected (get_cookbook file) data ->
     exists msg, create_entry file data = (Returned (Error msg) 400, file))
  /\ (~ request_rejected (get_cookbook file) data ->
        create_entry file data = (Returned Empty 200, store_cookbook file data))
  /\ (forall out file', create_entry file data = (out, file') ->
        out <> Returned Empty 200 -> file' = file)
  /\ (forall out file', create_entry file data = (out, file') ->
        out = Returned Empty 200 \/ exists msg, out = Returned (Error msg) 400).
Proof.
  destruct (create_entry_spec file data) as [[Hrej [msg Hmsg]]|[Hok Hacc]].
  - split; [eauto|]; split; [intros H; contradiction|]; split.
    + intros out file' H _; rewrite Hmsg in H; now injection H.
    + intros out file' H; rewrite Hmsg in H; injection H as <- _; eauto.
  - split; [intros H; contradiction|]; split; [auto|]; split.
    + intros out file' H Hne; rewrite Hacc in H; injection H as <- _; congruence.
    + intros out file' H; rewrite Hacc in H; injection H as <- _; auto.
Qed.

(* ===================================================================== *)
(** ** [parse_handwriting] *)
(* ===================================================================== *)

Ltac char_facts :=
  unfold is_letter, is_upper, is_lower, isspace, upper, lower in *;
  repeat rewrite ?Bool.orb_true_iff, ?Bool.andb_true_iff, ?Bool.orb_false_iff,
    ?Bool.andb_false_iff, ?N.leb_le, ?N.leb_gt, ?N.eqb_eq, ?N.eqb_neq in *.

Lemma is_upper_range c : is_upper c = true <-> (65 <= c <= 90)%N.
Proof. char_facts; lia. Qed.

Lemma is_lower_range c : is_lower c = true <-> (97 <= c <= 122)%N.
Proof. char_facts; lia. Qed.

Lemma is_letter_cases c :
  is_letter c = true <-> is_upper c = true \/ is_lower c = true.
Proof. unfold is_letter; apply Bool.orb_true_iff. Qed.

Lemma letter_not_space c : is_letter c = true -> isspace c = false.
Proof.
  intros H; apply Bool.not_true_is_false; intros Hs; char_facts; lia.
Qed.

Lemma upper_is_upper c : is_letter c = true -> is_upper (upper c) = true.
Proof.
  intros H; unfold upper; destruct (is_lower c) eqn:Hl.
  - apply is_lower_range in Hl; apply is_upper_range; lia.
  - apply is_letter_cases in H as [H|H]; congruence.
Qed.

Lemma lower_is_lower c : is_letter c = true -> is_lower (lower c) = true.
Proof.
  intros H; unfold lower; destruct (is_upper c) eqn:Hu.
  - apply is_upper_range in Hu; apply is_lower_range; lia.
  - apply is_letter_cases in H as [H|H]; congruence.
Qed.

Lemma upper_not_lower c : is_upper c = true -> is_lower c = false.
Proof.
  intros H; apply Bool.not_true_is_false; intros Hl.
  apply is_upper_range in H; apply is_lower_range in Hl; lia.
Qed.

Lemma lower_of_upper c : is_upper c = true -> lower c = (c + 32)%N.
Proof. intros H; unfold lower; now rewrite H. Qed.

Lemma lower_of_other c : is_upper c = false -> lower c = c.
Proof. intros H; unfold lower; now rewrite H. Qed.

Lemma lower_not_upper c : is_lower c = true -> is_upper c = false.
Proof.
  intros H; apply Bool.not_true_is_false; intros Hu.
  apply is_upper_range in Hu; apply is_lower_range in H; lia.
Qed.

Lemma lower_upper c : lower (upper c) = lower c.
Proof.
  unfold upper; destruct (is_lower c) eqn:Hl; [|reflexivity].
  rewrite (lower_of_other c (lower_not_upper c Hl)).
  apply is_lower_range in Hl.
  rewrite lower_of_upper by (apply is_upper_range; lia); lia.
Qed.

Lemma lower_lower c : lower (lower c) = lower c.
Proof.
  destruct (is_upper c) eqn:Hu.
  - apply lower_of_other, lower_not_upper, lower_is_lower, is_letter_cases.
    now left.
  - now rewrite !(lower_of_other c Hu).
Qed.

Lemma space_is_space : isspace 32 = true.
Proof. reflexivity. Qed.

Lemma upper_char_not_space c : is_upper c = true -> isspace c = false.
Proof. intros H; apply letter_not_space, is_letter_cases; now left. Qed.

Lemma lower_char_not_space c : is_lower c = true -> isspace c = false.
Proof. intros H; apply letter_not_space, is_letter_cases; now right. Qed.

(** *** Which letters survive *)

Lemma letters_sub_separators s :
  filter is_letter (sub_separators s) = filter is_letter s.
Proof.
  unfold sub_separators; induction s as [|c s IH]; simpl; [reflexivity|].
  rewrite IH.
  destruct ((c =? 45) || (c =? 95))%N eqn:Hsep; [|reflexivity].
  replace (is_letter c) with false; [reflexivity|].
  symmetry; apply Bool.not_true_is_false; intros H; char_facts; lia.
Qed.

Lemma letters_sub_non_letters s :
  filter is_letter (sub_non_letters s) = filter is_letter s.
Proof.
  unfold sub_non_letters; induction s as [|c s IH]; simpl; [reflexivity|].
  destruct (is_letter c) eqn:Hl, (isspace c) eqn:Hs; simpl;
    rewrite ?Hl, IH; reflexivity.
Qed.

Lemma letters_title s : forall previous_is_cased,
  map lower (filter is_letter (title_from previous_is_cased s))
  = map lower (filter is_letter s).
Proof.
  induction s as [|c s IH]; intros p; simpl; [reflexivity|].
  destruct (is_letter c) eqn:Hl.
  - assert (Hl' : is_letter (if p then lower c else upper c) = true).
    { apply is_letter_cases; destruct p;
        [right; now apply lower_is_lower | left; now apply upper_is_upper]. }
    rewrite Hl'; simpl; rewrite IH; f_equal.
    destruct p; [apply lower_lower | apply lower_upper].
  - rewrite Hl; apply IH.
Qed.

Lemma letters_sub_spaces s : forall in_run,
  filter is_letter (sub_spaces_from in_run s) = filter is_letter s.
Proof.
  induction s as [|c s IH]; intros b; simpl; [reflexivity|].
  destruct (isspace c) eqn:Hs.
  - replace (is_letter c) with false
      by (destruct (is_letter c) eqn:Hl; [|reflexivity];
          apply letter_not_space in Hl; congruence).
    destruct b; simpl; apply IH.
  - simpl; now rewrite IH.
Qed.

Lemma letters_lstrip s : filter is_letter (lstrip s) = filter is_letter s.
Proof.
  induction s as [|c s IH]; simpl; [reflexivity|].
  destruct (isspace c) eqn:Hs; [|reflexivity].
  replace (is_letter c) with false; [exact IH|].
  destruct (is_letter c) eqn:Hl; [|reflexivity].
  apply letter_not_space in Hl; congruence.
Qed.

Lemma letters_strip s : filter is_letter (strip s) = filter is_letter s.
Proof.
  unfold strip, rstrip.
  rewrite filter_rev, letters_lstrip, <- filter_rev, rev_involutive.
  apply letters_lstrip.
Qed.

Lemma letters_parse s :
  map lower (filter is_letter
               (strip (sub_spaces (title (sub_non_letters (sub_separators s))))))
  = map lower (filter is_letter s).
Proof.
  unfold sub_spaces, title.
  now rewrite letters_strip, letters_sub_spaces, letters_title,
    letters_sub_non_letters, letters_sub_separators.
Qed.

(** *** The shape of the result *)

Lemma sub_non_letters_kept s :
  Forall (fun c => is_letter c || isspace c = true) (sub_non_letters s).
Proof.
  apply Forall_forall; intros c Hc; apply filter_In in Hc; tauto.
Qed.

Lemma loose_states x :
  Forall (fun c => is_letter c || isspace c = true) x ->
  Loose true (sub_spaces_from false (title_from true x))
  /\ Loose false (sub_spaces_from true (title_from false x)).
Proof.
  induction 1 as [|c x Hc _ [IHt IHf]]; simpl; [split; constructor|].
  destruct (is_letter c) eqn:Hl.
  - rewrite (lower_char_not_space _ (lower_is_lower _ Hl)).
    rewrite (upper_char_not_space _ (upper_is_upper _ Hl)).
    split; [apply Loose_lower | apply Loose_upper];
      auto using lower_is_lower, upper_is_upper.
  - simpl in Hc; rewrite Hc.
    split; [apply Loose_space|]; exact IHf.
Qed.

Lemma loose_initial x :
  Forall (fun c => is_letter c || isspace c = true) x ->
  Loose false (lstrip (sub_spaces (title x))).
Proof.
  unfold sub_spaces, title; intros H.
  assert (Hkeep : forall v, Loose false v -> lstrip v = v).
  { intros v Hv; inversion Hv as [|c r Hu _| |]; subst; simpl; [reflexivity|].
    now rewrite (upper_char_not_space _ Hu). }
  destruct H as [|c x Hc Hx]; simpl; [constructor|].
  destruct (loose_states x Hx) as [IHt IHf].
  destruct (is_letter c) eqn:Hl.
  - rewrite (upper_char_not_space _ (upper_is_upper _ Hl)).
    simpl; rewrite (upper_char_not_space _ (upper_is_upper _ Hl)).
    apply Loose_upper; auto using upper_is_upper.
  - simpl in Hc; rewrite Hc; simpl.
    now rewrite (Hkeep _ IHf).
Qed.

Lemma lstrip_app_one l c :
  lstrip (l ++ [c])
  = match lstrip l with
    | [] => if isspace c then [] else [c]
    | y => y ++ [c]
    end.
Proof.
  induction l as [|a l IH]; simpl; [reflexivity|].
  destruct (isspace a); [exact IH | reflexivity].
Qed.

Lemma rstrip_cons c l :
  rstrip (c :: l)
  = match rstrip l with
    | [] => if isspace c then [] else [c]
    | _ :: _ => c :: rstrip l
    end.
Proof.
  unfold rstrip; simpl rev; rewrite lstrip_app_one.
  destruct (lstrip (rev l)) as [|a y] eqn:Hy.
  - simpl; destruct (isspace c); reflexivity.
  - rewrite rev_app_distr; change (rev [c]) with [c].
    change ([c] ++ rev (a :: y)) with (c :: rev (a :: y)).
    destruct (rev (a :: y)) eqn:Hrev; [|reflexivity].
    apply (f_equal (@length N)) in Hrev; rewrite length_rev in Hrev; discriminate.
Qed.

Lemma rstrip_keeps c l : isspace c = false -> rstrip (c :: l) = c :: rstrip l.
Proof.
  intros Hc; rewrite rstrip_cons, Hc; destruct (rstrip l); reflexivity.
Qed.

Lemma Name_false_head r :
  Name false r -> exists c r', r = c :: r' /\ is_upper c = true.
Proof. intros H; inversion H; subst; eauto. Qed.

Lemma rstrip_loose b v :
  Loose b v -> Name b (rstrip v) \/ (b = false /\ rstrip v = []).
Proof.
  induction 1 as [b|c r Hu _ IH|c r Hl _ IH|r _ IH].
  - destruct b; [left; constructor | right; auto].
  - left; rewrite (rstrip_keeps _ _ (upper_char_not_space _ Hu)).
    destruct IH as [IH|[IH _]]; [|discriminate].
    now apply Name_upper.
  - left; rewrite (rstrip_keeps _ _ (lower_char_not_space _ Hl)).
    destruct IH as [IH|[IH _]]; [|discriminate].
    now apply Name_lower.
  - left; rewrite rstrip_cons.
    destruct IH as [IH|[_ IH]].
    + destruct (Name_false_head _ IH) as (c & r' & Hr & _).
      rewrite Hr in *; now apply Name_space.
    + rewrite IH; simpl; constructor.
Qed.

Lemma Name_letters b r :
  Name b r -> Forall (fun c => is_letter c = true \/ c = 32%N) r.
Proof.
  induction 1; constructor; auto; left; apply is_letter_cases; auto.
Qed.

Lemma Name_last b r :
  Name b r -> r <> [] -> exists r' c, r = r' ++ [c] /\ is_letter c = true.
Proof.
  induction 1 as [|c r Hu Hr IH|c r Hl Hr IH|r Hr IH]; intros Hne.
  - contradiction.
  - destruct r as [|c' r0].
    + exists [], c; split; [reflexivity | apply is_letter_cases; now left].
    + destruct IH as (r' & c0 & -> & Hc0); [discriminate|].
      exists (c :: r'), c0; auto.
  - destruct r as [|c' r0].
    + exists [], c; split; [reflexivity | apply is_letter_cases; now right].
    + destruct IH as (r' & c0 & -> & Hc0); [discriminate|].
      exists (c :: r'), c0; auto.
  - destruct (Name_false_head _ Hr) as (c & r0 & -> & _).
    destruct IH as (r' & c0 & -> & Hc0); [discriminate|].
    exists (32%N :: r'), c0; auto.
Qed.

Lemma space_not_letter : is_upper 32 = false /\ is_lower 32 = false.
Proof. split; reflexivity. Qed.

(** After a space comes a capital letter. *)
Lemma Name_word_start b r :
  Name b r -> forall l1 c l2, r = l1 ++ 32%N :: c :: l2 -> is_upper c = true.
Proof.
  induction 1 as [|c0 r Hu Hr IH|c0 r Hl Hr IH|r Hr IH]; intros l1 c l2 Heq;
    destruct l1 as [|a l1]; simpl in Heq; try discriminate;
    injection Heq; intros; subst;
    try (eapply IH; reflexivity).
  - destruct space_not_letter; congruence.
  - destruct space_not_letter; congruence.
  - now inversion Hr.
Qed.

Lemma Name_single_spaces b r :
  Name b r -> forall l1 l2, r <> l1 ++ 32%N :: 32%N :: l2.
Proof.
  intros H l1 l2 Heq.
  pose proof (Name_word_start _ _ H l1 32%N l2 Heq).
  destruct space_not_letter; congruence.
Qed.

(** [parse_handwriting] on an input with a letter gives a [Name]. *)
Lemma parse_handwriting_shape s :
  let r := strip (sub_spaces (title (sub_non_letters (sub_separators s)))) in
  r = [] \/ Name false r.
Proof.
  intros r; unfold r, strip.
  destruct (rstrip_loose _ _ (loose_initial _ (sub_non_letters_kept (sub_separators s))))
    as [H|[_ H]]; [now right | now left].
Qed.

Lemma parse_handwriting_eq s :
  parse_handwriting s
  = match strip (sub_spaces (title (sub_non_letters (sub_separators s)))) with
    | [] => None
    | r => Some r
    end.
Proof.
  unfold parse_handwriting.
  destruct (strip _); reflexivity.
Qed.

(** *** The result is the capitalised words of the input *)

Lemma cleaned_cons p b c s :
  cleaned p b (c :: s)
  = if is_separator c then
      if b then cleaned false true s else 32%N :: cleaned false true s
    else if is_letter c then
      (if p then lower c else upper c) :: cleaned true false s
    else cleaned p b s.
Proof.
  unfold cleaned, is_separator, sub_separators, sub_non_letters.
  cbn [map filter].
  destruct ((c =? 45) || (c =? 95))%N eqn:Hsep.
  - change (is_letter 32 || isspace 32) with true.
    cbn [orb title_from sub_spaces_from].
    change (is_letter 32) with false; change (isspace 32) with true.
    reflexivity.
  - cbn [orb]; destruct (isspace c) eqn:Hs.
    + assert (Hl : is_letter c = false).
      { destruct (is_letter c) eqn:Hl; [|reflexivity].
        apply letter_not_space in Hl; congruence. }
      rewrite Hl; cbn [orb title_from sub_spaces_from].
      now rewrite Hl, Hs.
    + destruct (is_letter c) eqn:Hl; cbn [orb]; [|reflexivity].
      cbn [title_from sub_spaces_from]; rewrite Hl.
      destruct p.
      * now rewrite (lower_char_not_space _ (lower_is_lower _ Hl)).
      * now rewrite (upper_char_not_space _ (upper_is_upper _ Hl)).
Qed.

Lemma scan_words_cons c s :
  scan_words (c :: s)
  = if is_separator c then ([], cons_word (fst (scan_words s)) (snd (scan_words s)))
    else if is_letter c then (c :: fst (scan_words s), snd (scan_words s))
    else scan_words s.
Proof.
  cbn [scan_words]; destruct (scan_words s) as [w ws]; reflexivity.
Qed.

Lemma cons_word_nonempty w ws :
  Forall (fun v => v <> []) ws -> Forall (fun v => v <> []) (cons_word w ws).
Proof.
  intros H; destruct w; simpl; [exact H|]; constructor; [discriminate | exact H].
Qed.

Lemma scan_words_nonempty s : Forall (fun v => v <> []) (snd (scan_words s)).
Proof.
  induction s as [|c s IH]; [constructor|].
  rewrite scan_words_cons.
  destruct (is_separator c); [now apply cons_word_nonempty|].
  destruct (is_letter c); exact IH.
Qed.

Lemma join_words_cons w ws :
  join_words (map capitalize (w :: ws))
  = capitalize w ++ match ws with
                    | [] => []
                    | _ :: _ => 32%N :: join_words (map capitalize ws)
                    end.
Proof. destruct ws; reflexivity. Qed.

Lemma join_words_nil ws :
  Forall (fun v => v <> []) ws ->
  join_words (map capitalize ws) = [] -> ws = [].
Proof.
  intros H; destruct H as [|w ws Hw _]; [reflexivity|].
  rewrite join_words_cons; destruct w; [contradiction | discriminate].
Qed.

(** What is left of the text after a letter, and after a separator. *)
Lemma rstrip_cleaned s :
  rstrip (cleaned true false s)
  = map lower (fst (scan_words s))
    ++ match snd (scan_words s) with
       | [] => []
       | _ :: _ => 32%N :: join_words (map capitalize (snd (scan_words s)))
       end
  /\ rstrip (cleaned false true s) = join_words (map capitalize (name_words s)).
Proof.
  unfold name_words; induction s as [|c s [IHt IHf]]; [split; reflexivity|].
  pose proof (cons_word_nonempty (fst (scan_words s)) _ (scan_words_nonempty s)) as Hne.
  rewrite !cleaned_cons, scan_words_cons.
  destruct (is_separator c); [|destruct (is_letter c) eqn:Hl]; cbn [fst snd].
  - split; [|exact IHf].
    rewrite rstrip_cons, IHf; change (isspace 32) with true; cbn [map app].
    destruct (cons_word _ _) as [|v vs] eqn:Hws; [reflexivity|].
    destruct (join_words (map capitalize (v :: vs))) eqn:Hj; [|reflexivity].
    apply join_words_nil in Hj; [discriminate | exact Hne].
  - split.
    + rewrite (rstrip_keeps _ _ (lower_char_not_space _ (lower_is_lower _ Hl))), IHt.
      reflexivity.
    + rewrite (rstrip_keeps _ _ (upper_char_not_space _ (upper_is_upper _ Hl))), IHt.
      cbn [cons_word]; now rewrite join_words_cons.
  - split; assumption.
Qed.

Lemma lstrip_cleaned s : lstrip (cleaned false false s) = cleaned false true s.
Proof.
  unfold cleaned.
  pose proof (sub_non_letters_kept (sub_separators s)) as Hkept.
  assert (Hkeep : forall v, Loose false v -> lstrip v = v).
  { intros v Hv; inversion Hv as [|c r Hu _| |]; subst; simpl; [reflexivity|].
    now rewrite (upper_char_not_space _ Hu). }
  destruct Hkept as [|c x Hc Hx]; [reflexivity|].
  destruct (loose_states x Hx) as [_ IHf].
  cbn [title_from sub_spaces_from]; destruct (is_letter c) eqn:Hl.
  - rewrite (upper_char_not_space _ (upper_is_upper _ Hl)).
    cbn [lstrip]; now rewrite (upper_char_not_space _ (upper_is_upper _ Hl)).
  - simpl in Hc; rewrite Hc; cbn [lstrip].
    change (isspace 32) with true; cbv iota.
    now apply Hkeep.
Qed.

(** [parse_handwriting] computes the expected name. *)
Lemma parse_handwriting_expected s : parse_handwriting s = expected_name s.
Proof.
  rewrite parse_handwriting_eq; unfold expected_name, strip.
  change (sub_spaces (title (sub_non_letters (sub_separators s))))
    with (cleaned false false s).
  rewrite lstrip_cleaned, (proj2 (rstrip_cleaned s)).
  destruct (name_words s) as [|v vs] eqn:Hws; [reflexivity|].
  destruct (join_words (map capitalize (v :: vs))) eqn:Hj; [|reflexivity].
  apply join_words_nil in Hj; [discriminate|].
  rewrite <- Hws; apply cons_word_nonempty, scan_words_nonempty.
Qed.

(** The shape of what [parse_handwriting] returns. *)
Lemma parse_handwriting_result (s : str) :
  (parse_handwriting s = None <-> forall c, In c s -> is_letter c = false)
  /\ forall r, parse_handwriting s = Some r ->
       r = strip (sub_spaces (title (sub_non_letters (sub_separators s))))
       /\ r <> []
       /\ Forall (fun c => is_letter c = true \/ c = 32%N) r
       /\ (exists c r', r = c :: r' /\ is_upper c = true)
       /\ (exists r' c, r = r' ++ [c] /\ is_letter c = true)
       /\ (forall l1 l2, r <> l1 ++ 32%N :: 32%N :: l2)
       /\ (forall l1 c l2, r = l1 ++ 32%N :: c :: l2 -> is_upper c = true)
       /\ map lower (filter is_letter r) = map lower (filter is_letter s)
       /\ Name false r.
Proof.
  rewrite parse_handwriting_eq.
  pose proof (parse_handwriting_shape s) as Hshape.
  pose proof (letters_parse s) as Hletters.
  cbv zeta in Hshape.
  destruct (strip _) as [|c0 r0] eqn:Hr.
  - split; [|intros r H; discriminate].
    split; [intros _ c Hc | reflexivity].
    simpl in Hletters; symmetry in Hletters; apply map_eq_nil in Hletters.
    destruct (is_letter c) eqn:Hl; [|reflexivity].
    assert (Hin : In c (filter is_letter s)) by (apply filter_In; auto).
    rewrite Hletters in Hin; contradiction.
  - destruct Hshape as [Hnil|Hname]; [discriminate|].
    split.
    + split; [discriminate|]; intros Hno; exfalso.
      destruct (Name_false_head _ Hname) as (c & r' & Heq & Hu).
      injection Heq as <- <-.
      assert (Hl : is_letter c0 = true) by (apply is_letter_cases; now left).
      simpl in Hletters; rewrite Hl in Hletters; simpl in Hletters.
      destruct (filter is_letter s) as [|a l] eqn:Hf; [discriminate|].
      assert (Ha : In a (filter is_letter s)) by (rewrite Hf; now left).
      apply filter_In in Ha as [Ha1 Ha2]; rewrite (Hno a Ha1) in Ha2; discriminate.
    + intros r H; injection H as <-.
      split; [reflexivity|]; split; [discriminate|].
      split; [eapply Name_letters; eauto|].
      split; [now apply Name_false_head|].
      split; [eapply Name_last; eauto; discriminate|].
      split; [eapply Name_single_spaces; eauto|].
      split; [eapply Name_word_start; eauto|].
      split; [exact Hletters | exact Hname].
Qed.

Lemma letter_not_separator c : is_letter c = true -> is_separator c = false.
Proof.
  intros H; unfold is_separator; rewrite (letter_not_space _ H).
  apply Bool.not_true_is_false; intros Hs; char_facts; lia.
Qed.

Lemma scan_words_letters w s :
  Forall (fun c => is_letter c = true) w ->
  scan_words (w ++ s) = (w ++ fst (scan_words s), snd (scan_words s)).
Proof.
  induction 1 as [|c w Hc _ IH]; [simpl; now destruct (scan_words s)|].
  cbn [app]; rewrite scan_words_cons, (letter_not_separator _ Hc), Hc, IH.
  reflexivity.
Qed.

Lemma scan_words_word w :
  Forall (fun c => is_letter c = true) w -> scan_words w = (w, []).
Proof.
  intros H; rewrite <- (app_nil_r w) at 1.
  rewrite (scan_words_letters w [] H); simpl; now rewrite app_nil_r.
Qed.

(** C10. [parse_handwriting] returns [None] exactly when the input holds no
    ASCII letter.  Otherwise it returns the input with hyphens and
    underscores turned into spaces, every other character that is neither
    a letter nor whitespace deleted, then title-cased, whitespace runs
    collapsed and the ends stripped.  That result is not empty, consists of
    ASCII letters and spaces only, starts with a capital letter, ends with
    a letter, has no two spaces in a row, has a capital letter after every
    space, and holds the letters of the input in their order (up to case).
    It is the words of the input, the groups of letters that hyphens,
    underscores and whitespace separate, each capitalised, joined by single
    spaces: in particular a hyphen, an underscore or a whitespace character
    between two groups of letters leaves two words, and any other
    character that is not a letter leaves one. *)
Theorem parse_handwriting_spec (s : str) :
  (parse_handwriting s = None <-> forall c, In c s -> is_letter c = false)
  /\ (forall r, parse_handwriting s = Some r ->
       r = strip (sub_spaces (title (sub_non_letters (sub_separators s))))
       /\ r <> []
       /\ Forall (fun c => is_letter c = true \/ c = 32%N) r
       /\ (exists c r', r = c :: r' /\ is_upper c = true)
       /\ (exists r' c, r = r' ++ [c] /\ is_letter c = true)
       /\ (forall l1 l2, r <> l1 ++ 32%N :: 32%N :: l2)
       /\ (forall l1 c l2, r = l1 ++ 32%N :: c :: l2 -> is_upper c = true)
       /\ map lower (filter is_letter r) = map lower (filter is_letter s)
       /\ Name false r
       /\ r = join_words (map capitalize (name_words s)))
  /\ parse_handwriting s = expected_name s
  /\ (forall w1 w2 c,
        Forall (fun c => is_letter c = true) w1 -> w1 <> [] ->
        Forall (fun c => is_letter c = true) w2 -> w2 <> [] ->
        (is_separator c = true ->
         parse_handwriting (w1 ++ c :: w2)
         = Some (capitalize w1 ++ 32%N :: capitalize w2))
        /\ (is_separator c = false -> is_letter c = false ->
            parse_handwriting (w1 ++ c :: w2)
            = Some (capitalize w1 ++ map lower w2))).
Proof.
  destruct (parse_handwriting_result s) as [Hnone Hsome].
  split; [exact Hnone|]; split; [|split; [apply parse_handwriting_expected|]].
  - intros r Hr.
    destruct (Hsome r Hr) as (H1 & H2 & H3 & H4 & H5 & H6 & H7 & H8 & H9).
    repeat (split; [assumption|]).
    rewrite parse_handwriting_expected in Hr; unfold expected_name in Hr.
    destruct (name_words s); [discriminate | now injection Hr as <-].
  - intros w1 w2 c Hw1 Hne1 Hw2 Hne2.
    destruct w1 as [|a w1]; [contradiction|].
    destruct w2 as [|b w2]; [contradiction|].
    split; [intros Hsep | intros Hsep Hl];
      rewrite parse_handwriting_expected; unfold expected_name, name_words;
      rewrite (scan_words_letters _ _ Hw1), scan_words_cons, Hsep,
        ?Hl, (scan_words_word _ Hw2); cbn [fst snd app cons_word].
    + rewrite app_nil_r; cbn [map join_words capitalize app].
      now rewrite app_nil_r.
    + cbn [map join_words capitalize app]; now rewrite app_nil_r, map_app.
Qed.

Example parse_handwriting_meatball :
  parse_handwriting (codes "  meat-ball_sOUP!! 42  x ")
  = Some (codes "Meat Ball Soup X")
  /\ parse_handwriting (codes " -_ 42 ") = None.
Proof. split; reflexivity. Qed.

(* ===================================================================== *)
(** ** Cycles *)
(* ===================================================================== *)

Lemma Expands_deterministic cookbook work steps :
  Expands cookbook work steps ->
  forall steps', Expands cookbook work steps' -> steps = steps'.
Proof.
  induction 1 as [|n work steps Hleaf _ IH|n e work below steps He Ht _ IHb _ IH];
    intros steps' H'.
  - now inversion H'.
  - inversion H' as [|? ? s1 _ H1|? e1 ? b1 s1 He1 Ht1 _ _]; subst.
    + now rewrite (IH _ H1).
    + exfalso; eapply recipe_not_leaf; [exists e1|]; eauto.
  - inversion H' as [|? ? s1 Hleaf _|? e1 ? b1 s1 He1 Ht1 Hb1 H1]; subst.
    + exfalso; eapply recipe_not_leaf; [exists e|]; eauto.
    + assert (e1 = e) by congruence; subst e1.
      now rewrite (IHb _ Hb1), (IH _ H1).
Qed.

Lemma Expands_In cookbook work steps n :
  Expands cookbook work steps -> In n work ->
  exists steps', Expands cookbook [n] steps' /\ (steps' <= steps)%nat.
Proof.
  intros H Hin; destruct (in_split _ _ Hin) as (l1 & l2 & ->).
  apply Expands_app_elim in H as (a & b & _ & H & ->).
  change (n :: l2) with ([n] ++ l2) in H.
  apply Expands_app_elim in H as (a' & b' & H & _ & ->).
  exists a'; split; [exact H | lia].
Qed.

Lemma Expands_Reach cookbook n m :
  Reach cookbook n m -> forall steps, Expands cookbook [n] steps ->
  exists steps', Expands cookbook [m] steps' /\ (steps' <= steps)%nat.
Proof.
  induction 1 as [n|n e item m He Ht Hin _ IH]; intros steps H.
  - exists steps; auto.
  - inversion H as [|? ? s1 Hleaf _|? e1 ? below s1 He1 Ht1 Hb _]; subst.
    + exfalso; eapply recipe_not_leaf; [exists e|]; eauto.
    + assert (e1 = e) by congruence; subst e1.
      destruct (Expands_In _ _ _ (item_name item) Hb (in_map _ _ _ Hin))
        as (s2 & H2 & Hle2).
      destruct (IH _ H2) as (s3 & H3 & Hle3).
      exists s3; split; [exact H3 | lia].
Qed.

(** A recipe that requires itself, directly or through other recipes, has
    no finite expansion. *)
Lemma Expands_no_cycle cookbook r e item steps :
  look_for_item r cookbook = Some e -> type e = "recipe" ->
  In item (requiredItems e) -> Reach cookbook (item_name item) r ->
  Expands cookbook [r] steps -> False.
Proof.
  intros He Ht Hin Hback H.
  inversion H as [|? ? s1 Hleaf _|? e1 ? below s1 He1 Ht1 Hb Hnil]; subst.
  - eapply recipe_not_leaf; [exists e|]; eauto.
  - assert (e1 = e) by congruence; subst e1.
    destruct (Expands_In _ _ _ (item_name item) Hb (in_map _ _ _ Hin))
      as (s2 & H2 & Hle2).
    destruct (Expands_Reach _ _ _ Hback _ H2) as (s3 & H3 & Hle3).
    pose proof (Expands_deterministic _ _ _ H _ H3); lia.
Qed.

(** On a catalog with a cycle below the root, [summary] never answers with
    a summary; if in addition no name below the root is missing, it never
    answers at all. *)
Theorem summary_cycle_no_summary file root r e item :
  Reach (get_cookbook file) root r ->
  look_for_item r (get_cookbook file) = Some e -> type e = "recipe" ->
  In item (requiredItems e) ->
  Reach (get_cookbook file) (item_name item) r ->
  (forall fuel nm t l s,
     summary fuel file root <> Some (Returned (Summary nm t l) s))
  /\ ((forall n, Reach (get_cookbook file) root n ->
                 ~ is_absent (get_cookbook file) n) ->
      is_recipe (get_cookbook file) root ->
      forall fuel, summary fuel file root = None).
Proof.
  intros Hr He Ht Hin Hback.
  assert (Hnever : forall fuel final,
    while_queue fuel (get_cookbook file) [root] (initial_ingredients root)
    <> Some (inl final)).
  { intros fuel final Hrun.
    destruct (while_queue_Expands _ root _ _ _ _ (loop_inv_init _ root) Hrun)
      as (steps & Hexp & _).
    destruct (Expands_Reach _ _ _ Hr _ Hexp) as (s1 & H1 & _).
    eapply Expands_no_cycle; eauto. }
  split.
  - intros fuel nm t l s H.
    apply summary_success in H as (_ & final & Hrun & _).
    eapply Hnever; eauto.
  - intros Hpresent (e0 & He0 & Ht0) fuel.
    rewrite (summary_recipe _ _ _ _ He0 Ht0).
    destruct (while_queue fuel _ _ _) as [[final|out]|] eqn:Hrun; [| |reflexivity].
    + exfalso; eapply Hnever; eauto.
    + destruct (while_queue_abort _ root _ _ _ _ (loop_inv_init _ root) Hrun)
        as (_ & m & Hm & Habs).
      exfalso; eapply Hpresent; eauto.
Qed.

Lemma summary_cycle_no_summary_witness :
  Reach (get_cookbook cyclic_catalog) "A" "A"
  /\ Reach (get_cookbook cyclic_catalog) "B" "A"
  /\ forall fuel nm t l s,
       summary fuel cyclic_catalog "A" <> Some (Returned (Summary nm t l) s).
Proof.
  assert (Hback : Reach (get_cookbook cyclic_catalog) "B" "A").
  { eapply (Reach_item _ "B" (recipe "B" [("A", 1)])
              {| item_name := "A"; item_quantity := 1 |});
      [reflexivity | reflexivity | now left | constructor]. }
  split; [constructor|]; split; [exact Hback|].
  exact (proj1 (summary_cycle_no_summary cyclic_catalog "A" "A"
                  (recipe "A" [("B", 1)])
                  {| item_name := "B"; item_quantity := 1 |}
                  (Reach_here _ _) eq_refl eq_refl (or_introl eq_refl) Hback)).
Defined.

(** [summary] never dies on the dictionary access of its ingredient
    branch: whatever the cookbook, the name and the fuel, the outcome is an
    answer and not a [KeyError]. *)
Theorem summary_no_KeyError fuel file root :
  match summary fuel file root with
  | Some (KeyError _) => False
  | _ => True
  end.
Proof.
  destruct (look_for_item root (get_cookbook file)) as [e|] eqn:He.
  2:{ rewrite summary_not_recipe; [exact I|].
      intros (e & He' & _); congruence. }
  destruct (string_dec (type e) "recipe") as [Ht|Ht].
  2:{ rewrite summary_not_recipe; [exact I|].
      intros (e' & He' & Ht'); congruence. }
  rewrite (summary_recipe _ _ _ _ He Ht).
  destruct (while_queue fuel _ _ _) as [[final|out]|] eqn:Hrun; try exact I.
  now destruct (while_queue_abort _ root _ _ _ _ (loop_inv_init _ root) Hrun)
    as [-> _].
Qed.

(* ===================================================================== *)
(** ** Storing and looking up *)
(* ===================================================================== *)

Lemma look_for_item_app n l1 l2 :
  look_for_item n (l1 ++ l2)
  = match look_for_item n l1 with
    | Some e => Some e
    | None => look_for_item n l2
    end.
Proof.
  induction l1 as [|item l1 IH]; simpl; [reflexivity|].
  destruct (name item =? n)%string; [reflexivity | exact IH].
Qed.

(** A stored line does not replace an older one of the same name: after
    [store_cookbook] a name resolves to what it resolved to before, and to
    the new entry only if it resolved to nothing. *)
Theorem look_for_item_store file data n :
  look_for_item n (get_cookbook (store_cookbook file data))
  = match look_for_item n (get_cookbook file) with
    | Some e => Some e
    | None => if (name data =? n)%string then Some data else None
    end.
Proof.
  unfold store_cookbook; cbn [get_cookbook].
  rewrite look_for_item_app; simpl.
  destruct (look_for_item n (get_cookbook file)); [reflexivity|].
  destruct (name data =? n)%string; reflexivity.
Qed.

(** When the names of a cookbook are unique, every entry in it is the one
    [look_for_item] returns for its name. *)
Theorem look_for_item_finds cookbook e :
  NoDup (map name cookbook) -> In e cookbook ->
  look_for_item (name e) cookbook = Some e.
Proof.
  induction cookbook as [|item rest IH]; simpl; [tauto|].
  intros Hnd [->|Hin].
  - now rewrite String.eqb_refl.
  - inversion Hnd as [|? ? Hnotin Hnd']; subst.
    destruct (String.eqb_spec (name item) (name e)) as [Heq|Hne]; [|auto].
    exfalso; apply Hnotin; rewrite Heq; now apply in_map.
Qed.

Lemma look_for_item_finds_witness :
  NoDup (map name (get_cookbook cake_catalog))
  /\ In (ingredient "Flour" 1) (get_cookbook cake_catalog)
  /\ look_for_item "Flour" (get_cookbook cake_catalog) = Some (ingredient "Flour" 1).
Proof.
  assert (Hnd : NoDup (map name (get_cookbook cake_catalog)))
    by (simpl; repeat constructor; simpl; intuition discriminate).
  assert (Hin : In (ingredient "Flour" 1) (get_cookbook cake_catalog))
    by (simpl; auto).
  split; [exact Hnd|]; split; [exact Hin|].
  exact (look_for_item_finds (get_cookbook cake_catalog) (ingredient "Flour" 1) Hnd Hin).
Defined.

(* ===================================================================== *)
(** ** More on [create_entry] *)
(* ===================================================================== *)

Ltac first_failure :=
  repeat split; try discriminate; intros;
  try (intuition congruence); try (intuition lia).

(** The checks are made in the order type, cook time, name, required
    items, and the first that fails decides the error. *)
Theorem create_entry_first_failure file data :
  (fst (create_entry file data) = Returned (Error "Invalid type") 400
   <-> type data <> "recipe" /\ type data <> "ingredient")
  /\ (fst (create_entry file data) = Returned (Error "Invalid cookTime") 400
      <-> type data = "ingredient" /\ cookTime data < 0)
  /\ (fst (create_entry file data) = Returned (Error "Name already exists") 400
      <-> (type data = "recipe" \/ type data = "ingredient" /\ 0 <= cookTime data)
          /\ In (name data) (map name (get_cookbook file)))
  /\ (fst (create_entry file data)
      = Returned (Error "Required items must have unique names") 400
      <-> type data = "recipe"
          /\ ~ In (name data) (map name (get_cookbook file))
          /\ ~ NoDup (map item_name (requiredItems data))).
Proof.
  unfold create_entry.
  destruct (String.eqb_spec (type data) "recipe") as [Hr|Hr];
    destruct (String.eqb_spec (type data) "ingredient") as [Hi|Hi]; simpl;
    try (rewrite Hr in Hi; discriminate).
  - destruct (existsb _ (get_cookbook file)) eqn:Hp.
    + apply is_present_In in Hp; simpl; first_failure.
    + assert (Hn : ~ In (name data) (map name (get_cookbook file)))
        by (intros H; apply is_present_In in H; congruence).
      destruct (Nat.eqb _ _) eqn:Hlen; simpl.
      * rewrite <- (length_map item_name (requiredItems data)) in Hlen.
        apply length_py_set in Hlen; first_failure.
      * assert (Hdup : ~ NoDup (map item_name (requiredItems data))).
        { intros H; apply length_py_set in H; rewrite length_map in H; congruence. }
        first_failure.
  - destruct (Z.ltb_spec (cookTime data) 0) as [Hc|Hc]; simpl; [first_failure|].
    destruct (existsb _ (get_cookbook file)) eqn:Hp; simpl.
    + apply is_present_In in Hp; first_failure.
    + assert (Hn : ~ In (name data) (map name (get_cookbook file)))
        by (intros H; apply is_present_In in H; congruence).
      first_failure.
  - first_failure.
Qed.



Lemma catalog_invariants_after file data :
  catalog_invariants (get_cookbook file) ->
  catalog_invariants (get_cookbook (snd (create_entry file data))).
Proof.
  intros Inv.
  destruct (create_entry_spec file data) as [[_ [msg ->]]|[Hok ->]]; [exact Inv|].
  now apply catalog_invariants_store.
Qed.

(** Whatever requests are made, starting without a cookbook file, the
    cookbook they leave has unique entry names, recipes whose required
    items have unique names, ingredients with cook times of at least 0, and
    no entry of a type other than 'recipe' and 'ingredient'. *)
Theorem create_entries_invariants requests :
  catalog_invariants (get_cookbook (create_entries None requests))
  /\ types_are_valid (get_cookbook (create_entries None requests)).
Proof.
  assert (Hgen : forall file,
            catalog_invariants (get_cookbook file) /\ types_are_valid (get_cookbook file) ->
            catalog_invariants (get_cookbook (create_entries file requests))
            /\ types_are_valid (get_cookbook (create_entries file requests))).
  { unfold create_entries.
    induction requests as [|data requests IH]; intros file [Hc Ht]; simpl; [auto|].
    apply IH; split;
      [now apply catalog_invariants_after | now apply create_entry_keeps_types]. }
  apply Hgen; split.
  - split; simpl; [constructor | tauto | tauto].
  - intros e [].
Qed.

(* ===================================================================== *)
(** ** More on [summary] *)
(* ===================================================================== *)

Lemma loop_body_ext cookbook1 cookbook2 current queue d :
  look_for_item current cookbook1 = look_for_item current cookbook2 ->
  loop_body cookbook1 current queue d = loop_body cookbook2 current queue d.
Proof. intros H; unfold loop_body; now rewrite H. Qed.

(** The loop reads the cookbook only at the names reachable from the root. *)
Lemma while_queue_local cookbook1 cookbook2 root :
  (forall n, Reach cookbook1 root n ->
             look_for_item n cookbook1 = look_for_item n cookbook2) ->
  forall fuel queue d,
    loop_inv cookbook1 root queue d ->
    while_queue fuel cookbook1 queue d = while_queue fuel cookbook2 queue d.
Proof.
  intros Hsame; induction fuel as [|fuel IH]; intros [|current queue] d Inv;
    try reflexivity.
  rewrite !while_queue_step.
  rewrite <- (loop_body_ext cookbook1 cookbook2)
    by (apply Hsame, (inv_reach _ _ _ _ Inv); left; now left).
  destruct (loop_body_cases _ _ _ _ _ Inv)
    as [[Habs Hb]|[(e & He & Ht & Hb)|(slot & Hleaf & Hslot & Hb)]];
    rewrite Hb; [reflexivity| |].
  - apply IH; eapply loop_inv_recipe; eauto.
  - apply IH; eapply loop_inv_leaf; eauto.
Qed.

(** [summary] depends on the cookbook only through the entries reachable
    from the requested name: two cookbooks that resolve every such name
    alike get the same answer, for every fuel. *)
Theorem summary_reads_reachable_only fuel file1 file2 root :
  (forall n, Reach (get_cookbook file1) root n ->
             look_for_item n (get_cookbook file1) = look_for_item n (get_cookbook file2)) ->
  summary fuel file1 root = summary fuel file2 root.
Proof.
  intros Hsame.
  pose proof (Hsame root (Reach_here _ _)) as Hroot.
  unfold summary; rewrite <- Hroot.
  destruct (look_for_item root (get_cookbook file1)) as [e|] eqn:He; [|reflexivity].
  destruct (negb _); [reflexivity|].
  rewrite (look_for_item_name _ _ _ He).
  change (dict_set root {| quantity := 1; unit_cook_time := 0 |} [])
    with (initial_ingredients root).
  now rewrite (while_queue_local _ _ root Hsame _ _ _ (loop_inv_init _ root)).
Qed.

Lemma summary_reads_reachable_only_witness :
  (forall n, Reach (get_cookbook cake_catalog) "Dough" n ->
     look_for_item n (get_cookbook cake_catalog)
     = look_for_item n [recipe "Dough" [("Flour", 2)]; ingredient "Flour" 1])
  /\ summary 3 cake_catalog "Dough"
     = summary 3 (Some [recipe "Dough" [("Flour", 2)]; ingredient "Flour" 1]) "Dough".
Proof.
  assert (Hsame : forall n, Reach (get_cookbook cake_catalog) "Dough" n ->
     look_for_item n (get_cookbook cake_catalog)
     = look_for_item n [recipe "Dough" [("Flour", 2)]; ingredient "Flour" 1]).
  { intros n Hn.
    inversion Hn as [|? e item ? He Ht Hin Hrest]; subst; [reflexivity|].
    injection He as <-; destruct Hin as [<-|[]]; simpl in Hrest.
    inversion Hrest as [|? e' item' ? He' Ht']; subst; [reflexivity|].
    injection He' as <-; discriminate. }
  split; [exact Hsame|].
  exact (summary_reads_reachable_only 3 cake_catalog
           (Some [recipe "Dough" [("Flour", 2)]; ingredient "Flour" 1]) "Dough" Hsame).
Defined.

(** A run that ends with a dictionary has met no missing name. *)
Lemma success_resolves cookbook root fuel final n :
  while_queue fuel cookbook [root] (initial_ingredients root) = Some (inl final) ->
  Reach cookbook root n -> ~ is_absent cookbook n.
Proof.
  intros Hrun Hreach Habs.
  destruct (while_queue_absent_below _ root _ _ Hreach Habs [] []
              (initial_ingredients root) (loop_inv_init _ _)) as [fuel' Hfuel].
  simpl app in Hfuel.
  pose proof (while_queue_deterministic _ _ _ _ _ _ _ Hrun Hfuel); discriminate.
Qed.

(** A summary, once given, is given again after any further [/entry]
    request, accepted or not. *)
Theorem summary_stable_under_writes fuel file root nm t l s data :
  summary fuel file root = Some (Returned (Summary nm t l) s) ->
  summary fuel (snd (create_entry file data)) root
  = Some (Returned (Summary nm t l) s).
Proof.
  intros H.
  destruct (create_entry_spec file data) as [[_ [msg ->]]|[_ ->]]; [exact H|].
  cbn [snd]; rewrite <- H.
  apply summary_success in H as ((e & He & Ht) & final & Hrun & _).
  assert (Hsame : forall n, Reach (get_cookbook file) root n ->
            look_for_item n (get_cookbook file)
            = look_for_item n (get_cookbook (store_cookbook file data))).
  { intros n Hn; rewrite look_for_item_store.
    destruct (look_for_item n (get_cookbook file)) eqn:Hlook; [reflexivity|].
    exfalso; eapply success_resolves; eauto. }
  assert (He' : look_for_item root (get_cookbook (store_cookbook file data)) = Some e)
    by (rewrite <- Hsame; [exact He | constructor]).
  rewrite (summary_recipe _ _ _ _ He Ht), (summary_recipe _ _ _ _ He' Ht).
  now rewrite (while_queue_local _ _ root Hsame _ _ _ (loop_inv_init _ root)).
Qed.

Lemma summary_stable_under_writes_witness :
  summary 4 cake_catalog "Cake"
  = Some (Returned (Summary "Cake" 3 [("Flour", 3)]) 200)
  /\ summary 4 (snd (create_entry cake_catalog (ingredient "Sugar" 7))) "Cake"
     = Some (Returned (Summary "Cake" 3 [("Flour", 3)]) 200).
Proof.
  split; [reflexivity|].
  exact (summary_stable_under_writes 4 cake_catalog "Cake" "Cake" 3 [("Flour", 3)]
           200 (ingredient "Sugar" 7) eq_refl).
Defined.

(** The names of a returned summary are, each exactly once, the names
    reachable from the root that resolve to an entry other than a recipe. *)
Theorem summary_lists_reachable_leaves fuel file root nm t l s :
  summary fuel file root = Some (Returned (Summary nm t l) s) ->
  NoDup (map fst l)
  /\ forall x, In x (map fst l)
               <-> Reach (get_cookbook file) root x /\ is_leaf (get_cookbook file) x.
Proof.
  intros H.
  apply summary_success in H as (_ & final & Hrun & Inv & _ & _ & -> & _).
  rewrite keys_ingredients_list; split; [apply (inv_keys _ _ _ _ Inv)|].
  intros x; split.
  - intros Hx; destruct (loop_inv_final_leaf _ _ _ _ Inv Hx); auto.
  - intros [Hreach Hleaf].
    eapply (while_queue_covers _ root x _ _ _ _ root (loop_inv_init _ root) Hrun);
      auto; now left.
Qed.

Lemma summary_lists_reachable_leaves_witness :
  summary 4 cake_catalog "Cake"
  = Some (Returned (Summary "Cake" 3 [("Flour", 3)]) 200)
  /\ NoDup (map fst [("Flour", 3)]).
Proof.
  split; [reflexivity|].
  exact (proj1 (summary_lists_reachable_leaves 4 cake_catalog "Cake" "Cake" 3
                  [("Flour", 3)] 200 eq_refl)).
Defined.

(** The three answers of [summary] and when each is given: "Recipe not
    found" exactly for a name that is no recipe; for a recipe, "Items not
    in the cookbook" only if a name below it is missing and a summary, under
    the requested name and with status 200, only if none is. *)
Theorem summary_answers fuel file root out :
  summary fuel file root = Some out ->
  (out = recipe_not_found /\ ~ is_recipe (get_cookbook file) root)
  \/ (out = items_not_in_cookbook /\ is_recipe (get_cookbook file) root
      /\ exists m, Reach (get_cookbook file) root m /\ is_absent (get_cookbook file) m)
  \/ (exists t l, out = Returned (Summary root t l) 200
      /\ is_recipe (get_cookbook file) root
      /\ forall m, Reach (get_cookbook file) root m -> ~ is_absent (get_cookbook file) m).
Proof.
  intros H.
  destruct (look_for_item root (get_cookbook file)) as [e|] eqn:He.
  2:{ left; rewrite summary_not_recipe in H by (intros (e & He' & _); congruence).
      injection H as <-; split; [reflexivity | intros (e & He' & _); congruence]. }
  destruct (string_dec (type e) "recipe") as [Ht|Ht].
  2:{ left; rewrite summary_not_recipe in H by (intros (e' & He' & Ht'); congruence).
      injection H as <-; split; [reflexivity | intros (e' & He' & Ht'); congruence]. }
  assert (Hrec : is_recipe (get_cookbook file) root) by (exists e; auto).
  right; rewrite (summary_recipe _ _ _ _ He Ht) in H.
  destruct (while_queue fuel _ _ _) as [[final|out']|] eqn:Hrun; [| |discriminate];
    injection H as <-.
  - right; do 2 eexists; split; [reflexivity|]; split; [exact Hrec|].
    intros m Hm; eapply success_resolves; eauto.
  - left.
    destruct (while_queue_abort _ root _ _ _ _ (loop_inv_init _ root) Hrun)
      as (-> & m & Hm & Habs).
    split; [reflexivity|]; split; [exact Hrec|]; eauto.
Qed.

Lemma summary_answers_witness :
  summary 2 (catalog_lacking "Sugar") "Cake" = Some items_not_in_cookbook
  /\ ((items_not_in_cookbook = recipe_not_found
       /\ ~ is_recipe (get_cookbook (catalog_lacking "Sugar")) "Cake")
      \/ (items_not_in_cookbook = items_not_in_cookbook
          /\ is_recipe (get_cookbook (catalog_lacking "Sugar")) "Cake"
          /\ exists m, Reach (get_cookbook (catalog_lacking "Sugar")) "Cake" m
                       /\ is_absent (get_cookbook (catalog_lacking "Sugar")) m)
      \/ (exists t l, items_not_in_cookbook = Returned (Summary "Cake" t l) 200
          /\ is_recipe (get_cookbook (catalog_lacking "Sugar")) "Cake"
          /\ forall m, Reach (get_cookbook (catalog_lacking "Sugar")) "Cake" m ->
                       ~ is_absent (get_cookbook (catalog_lacking "Sugar")) m)).
Proof.
  split; [reflexivity|].
  exact (summary_answers 2 (catalog_lacking "Sugar") "Cake" items_not_in_cookbook
           eq_refl).
Defined.

(** *** The cook time is never negative *)

Lemma held_nonneg_add q d item :
  0 <= q -> 0 <= item_quantity item ->
  held_nonneg d -> held_nonneg (add_to_ingredients q d item).
Proof.
  intros Hq Hk Hd n slot'; rewrite dict_get_add.
  destruct (item_name item =? n)%string; [|apply Hd].
  intros H; injection H as <-; simpl; unfold qty.
  destruct (dict_get n d) as [slot|] eqn:Hget; [|nia].
  pose proof (Hd _ _ Hget); nia.
Qed.

Lemma held_nonneg_add_all q items : forall d,
  0 <= q -> (forall item, In item items -> 0 <= item_quantity item) ->
  held_nonneg d -> held_nonneg (fold_left (add_to_ingredients q) items d).
Proof.
  induction items as [|item items IH]; intros d Hq Hk Hd; simpl; [exact Hd|].
  apply IH; auto.
  - intros; apply Hk; now right.
  - apply held_nonneg_add; auto; apply Hk; now left.
Qed.

Lemma while_queue_nonneg cookbook root fuel : forall queue d final,
  quantities_nonneg cookbook ->
  loop_inv cookbook root queue d -> held_nonneg d ->
  while_queue fuel cookbook queue d = Some (inl final) ->
  held_nonneg final.
Proof.
  induction fuel as [|fuel IH]; intros [|current queue] d final Hpos Inv Hd H;
    try discriminate; try (simpl in H; injection H as <-; exact Hd).
  rewrite while_queue_step in H.
  destruct (loop_body_cases _ _ _ _ _ Inv)
    as [[Habs Hb]|[(e & He & Ht & Hb)|(slot & Hleaf & Hslot & Hb)]];
    rewrite Hb in H; [discriminate| |].
  - eapply IH; [exact Hpos | eapply loop_inv_recipe; eauto | | exact H].
    apply held_nonneg_add_all.
    + unfold qty; destruct (dict_get current d) as [slot|] eqn:Hget; [|lia].
      apply (Hd _ _ Hget).
    + intros item Hin; eapply Hpos; eauto using look_for_item_In.
    + intros n slot; rewrite dict_get_remove by apply (inv_keys _ _ _ _ Inv).
      destruct (current =? n)%string; [discriminate | apply Hd].
  - eapply IH; [exact Hpos | eapply loop_inv_leaf; eauto | | exact H].
    intros n slot'; rewrite dict_get_set.
    destruct (current =? n)%string; [|apply Hd].
    intros E; injection E as <-; simpl; apply (Hd _ _ Hslot).
Qed.

Lemma unit_time_nonneg cookbook n :
  catalog_invariants cookbook -> 0 <= unit_time cookbook n.
Proof.
  intros Inv; unfold unit_time.
  destruct (look_for_item n cookbook) as [e|] eqn:He; [|lia].
  destruct (String.eqb_spec (type e) "ingredient") as [Ht|Ht]; [|lia].
  eapply cookTime_nonneg; eauto using look_for_item_In.
Qed.

Lemma weighted_cook_time_nonneg cookbook l :
  catalog_invariants cookbook ->
  (forall n q, In (n, q) l -> 0 <= q) ->
  0 <= weighted_cook_time cookbook l.
Proof.
  intros Inv; induction l as [|[n q] l IH]; intros Hq; simpl; [lia|].
  pose proof (unit_time_nonneg cookbook n Inv).
  pose proof (Hq n q (or_introl eq_refl)).
  assert (0 <= weighted_cook_time cookbook l) by (apply IH; intros; eapply Hq; right; eauto).
  nia.
Qed.

(** On a cookbook that keeps the catalog invariants and holds no negative
    required quantity, a returned summary has no negative quantity and a
    cook time of at least 0. *)
Theorem summary_cook_time_nonneg fuel file root nm t l s :
  catalog_invariants (get_cookbook file) ->
  quantities_nonneg (get_cookbook file) ->
  summary fuel file root = Some (Returned (Summary nm t l) s) ->
  0 <= t /\ forall n q, In (n, q) l -> 0 <= q.
Proof.
  intros Inv Hpos H.
  apply summary_success in H as (_ & final & Hrun & Hfin & _ & -> & -> & _).
  assert (Hheld : held_nonneg final).
  { eapply while_queue_nonneg; [exact Hpos | apply loop_inv_init | | exact Hrun].
    intros n slot; unfold initial_ingredients; simpl.
    destruct (root =? n)%string; [|discriminate].
    intros E; injection E as <-; simpl; lia. }
  assert (Hq : forall n q, In (n, q) (ingredients_list_of final) -> 0 <= q).
  { intros n q Hin; apply in_ingredients_list in Hin as (slot & Hin & <-).
    apply (Hheld n); apply In_dict_get; [apply (inv_keys _ _ _ _ Hfin) | exact Hin]. }
  split; [|exact Hq].
  rewrite (total_cooktime_weighted (get_cookbook file) final)
    by (intros; eapply loop_inv_final_time; eauto).
  now apply weighted_cook_time_nonneg.
Qed.

Lemma cake_catalog_nonneg : quantities_nonneg (get_cookbook cake_catalog).
Proof.
  intros e item He Hin; pose proof (cake_catalog_quantities e item He Hin); lia.
Qed.

Lemma summary_cook_time_nonneg_witness :
  catalog_invariants (get_cookbook cake_catalog)
  /\ quantities_nonneg (get_cookbook cake_catalog)
  /\ summary 4 cake_catalog "Cake"
     = Some (Returned (Summary "Cake" 3 [("Flour", 3)]) 200)
  /\ 0 <= 3.
Proof.
  split; [exact cake_catalog_invariants|].
  split; [exact cake_catalog_nonneg|]; split; [reflexivity|].
  exact (proj1 (summary_cook_time_nonneg 4 cake_catalog "Cake" "Cake" 3
                  [("Flour", 3)] 200 cake_catalog_invariants cake_catalog_nonneg
                  eq_refl)).
Defined.

(* ===================================================================== *)
(** ** More on [parse_handwriting], and [parse] *)
(* ===================================================================== *)

Lemma parse_handwriting_Name s r : parse_handwriting s = Some r -> Name false r.
Proof.
  rewrite parse_handwriting_eq; intros H.
  destruct (parse_handwriting_shape s) as [Hnil|Hname].
  - rewrite Hnil in H; discriminate.
  - destruct (strip _); [discriminate|]; now injection H as <-.
Qed.

Lemma parse_handwriting_None s :
  parse_handwriting s = None <-> filter is_letter s = [].
Proof.
  rewrite parse_handwriting_eq.
  pose proof (letters_parse s) as Hletters.
  destruct (parse_handwriting_shape s) as [Hnil|Hname].
  - rewrite Hnil in *; simpl in Hletters.
    symmetry in Hletters; apply map_eq_nil in Hletters; tauto.
  - destruct (Name_false_head _ Hname) as (c & r' & Heq & Hu).
    rewrite Heq in *; split; [discriminate|]; intros Hno.
    rewrite Hno in Hletters; simpl in Hletters.
    replace (is_letter c) with true in Hletters
      by (symmetry; apply is_letter_cases; now left).
    discriminate.
Qed.

Lemma upper_of_lower c : is_lower c = true -> upper c = (c - 32)%N.
Proof. intros H; unfold upper; now rewrite H. Qed.

Lemma upper_of_other c : is_lower c = false -> upper c = c.
Proof. intros H; unfold upper; now rewrite H. Qed.

Lemma Name_title b r : Name b r -> title_from b r = r.
Proof.
  induction 1 as [|c r Hu _ IH|c r Hl _ IH|r _ IH]; cbn [title_from].
  - reflexivity.
  - replace (is_letter c) with true by (symmetry; apply is_letter_cases; now left).
    now rewrite (upper_of_other c (upper_not_lower c Hu)), IH.
  - replace (is_letter c) with true by (symmetry; apply is_letter_cases; now right).
    now rewrite (lower_of_other c (lower_not_upper c Hl)), IH.
  - change (is_letter 32) with false; cbv iota.
    now rewrite IH.
Qed.

Lemma Name_sub_spaces b r :
  Name b r -> forall in_run, (b = true -> in_run = false) ->
  sub_spaces_from in_run r = r.
Proof.
  induction 1 as [|c r Hu _ IH|c r Hl _ IH|r _ IH]; intros in_run Hrun; simpl.
  - reflexivity.
  - rewrite (upper_char_not_space _ Hu); f_equal; now apply IH.
  - rewrite (lower_char_not_space _ Hl); f_equal; now apply IH.
  - rewrite (Hrun eq_refl); f_equal; apply IH; discriminate.
Qed.

Lemma Name_rstrip b r : Name b r -> rstrip r = r.
Proof.
  induction 1 as [|c r Hu _ IH|c r Hl _ IH|r Hr IH].
  - reflexivity.
  - now rewrite (rstrip_keeps _ _ (upper_char_not_space _ Hu)), IH.
  - now rewrite (rstrip_keeps _ _ (lower_char_not_space _ Hl)), IH.
  - rewrite rstrip_cons, IH.
    destruct (Name_false_head _ Hr) as (c & r' & -> & _); reflexivity.
Qed.

Lemma Name_kept b r :
  Name b r -> sub_separators r = r /\ sub_non_letters r = r.
Proof.
  intros H; apply Name_letters in H.
  unfold sub_separators, sub_non_letters.
  induction H as [|c r Hc _ [IH1 IH2]]; simpl; [auto|].
  rewrite IH1.
  assert (Hsep : ((c =? 45) || (c =? 95))%N = false).
  { destruct Hc as [Hc| ->]; [|reflexivity].
    apply Bool.not_true_is_false; intros Hs; char_facts; lia. }
  assert (Hkeep : is_letter c || isspace c = true).
  { destruct Hc as [Hc| ->]; [now rewrite Hc | reflexivity]. }
  now rewrite Hsep, Hkeep, IH2.
Qed.

(** [parse_handwriting] leaves a well-formed name as it is. *)
Lemma Name_parse r : Name false r -> parse_handwriting r = Some r.
Proof.
  intros H; rewrite parse_handwriting_eq.
  destruct (Name_kept _ _ H) as [Hsep Hkeep].
  rewrite Hsep, Hkeep.
  unfold title, sub_spaces, strip.
  rewrite (Name_title _ _ H), (Name_sub_spaces _ _ H) by discriminate.
  destruct (Name_false_head _ H) as (c & r' & Heq & Hu).
  assert (Hl : lstrip r = r)
    by (rewrite Heq; simpl; now rewrite (upper_char_not_space _ Hu)).
  rewrite Hl, (Name_rstrip _ _ H), Heq; reflexivity.
Qed.

(** A name that [parse_handwriting] returns is left as it is by
    [parse_handwriting]: parsing twice is parsing once. *)
Theorem parse_handwriting_idempotent s r :
  parse_handwriting s = Some r -> parse_handwriting r = Some r.
Proof.
  intros H; apply Name_parse.
  rewrite parse_handwriting_eq in H.
  destruct (parse_handwriting_shape s) as [Hnil|Hname].
  - rewrite Hnil in H; discriminate.
  - destruct (strip _); [discriminate|]; now injection H as <-.
Qed.

Lemma parse_handwriting_idempotent_witness :
  parse_handwriting (codes "  meat-ball_sOUP!! 42  x ") = Some (codes "Meat Ball Soup X")
  /\ parse_handwriting (codes "Meat Ball Soup X") = Some (codes "Meat Ball Soup X").
Proof.
  split; [reflexivity|].
  exact (parse_handwriting_idempotent (codes "  meat-ball_sOUP!! 42  x ")
           (codes "Meat Ball Soup X") eq_refl).
Defined.

(** *** The case of the input does not matter *)

Lemma lower_letter c : is_letter (lower c) = is_letter c.
Proof.
  destruct (is_upper c) eqn:Hu; [|now rewrite (lower_of_other c Hu)].
  assert (Hl : is_letter c = true) by (apply is_letter_cases; now left).
  rewrite Hl; apply is_letter_cases; right; now apply lower_is_lower.
Qed.

Lemma lower_space c : isspace (lower c) = isspace c.
Proof.
  destruct (is_upper c) eqn:Hu; [|now rewrite (lower_of_other c Hu)].
  assert (Hl : is_letter c = true) by (apply is_letter_cases; now left).
  rewrite (letter_not_space _ Hl).
  apply lower_char_not_space, lower_is_lower, Hl.
Qed.

Lemma upper_lower c : upper (lower c) = upper c.
Proof.
  destruct (is_upper c) eqn:Hu; [|now rewrite (lower_of_other c Hu)].
  rewrite (upper_of_other c (upper_not_lower c Hu)).
  rewrite (lower_of_upper c Hu).
  apply is_upper_range in Hu.
  rewrite upper_of_lower by (apply is_lower_range; lia); lia.
Qed.

Lemma lower_separator c :
  (if ((lower c =? 45) || (lower c =? 95))%N then 32%N else lower c)
  = lower (if ((c =? 45) || (c =? 95))%N then 32%N else c).
Proof.
  destruct (is_upper c) eqn:Hu.
  - rewrite (lower_of_upper c Hu); apply is_upper_range in Hu.
    replace ((c + 32 =? 45) || (c + 32 =? 95))%N with false
      by (symmetry; apply Bool.not_true_is_false; intros H; char_facts; lia).
    replace ((c =? 45) || (c =? 95))%N with false
      by (symmetry; apply Bool.not_true_is_false; intros H; char_facts; lia).
    symmetry; apply lower_of_upper, is_upper_range; lia.
  - rewrite (lower_of_other c Hu).
    destruct ((c =? 45) || (c =? 95))%N; [reflexivity|].
    symmetry; now apply lower_of_other.
Qed.

Lemma sub_separators_lower s :
  sub_separators (map lower s) = map lower (sub_separators s).
Proof.
  unfold sub_separators; rewrite !map_map.
  apply map_ext; intros c; apply lower_separator.
Qed.

Lemma sub_non_letters_lower s :
  sub_non_letters (map lower s) = map lower (sub_non_letters s).
Proof.
  unfold sub_non_letters; induction s as [|c s IH]; simpl; [reflexivity|].
  rewrite lower_letter, lower_space, IH.
  destruct (is_letter c || isspace c); reflexivity.
Qed.

Lemma title_lower s : forall previous_is_cased,
  title_from previous_is_cased (map lower s) = title_from previous_is_cased s.
Proof.
  induction s as [|c s IH]; intros p; simpl; [reflexivity|].
  rewrite lower_letter, lower_lower, upper_lower, IH.
  destruct (is_letter c) eqn:Hl; [reflexivity|].
  f_equal; apply lower_of_other.
  destruct (is_upper c) eqn:Hu; [|reflexivity].
  assert (is_letter c = true) by (apply is_letter_cases; now left); congruence.
Qed.

Lemma parse_handwriting_lower s :
  parse_handwriting (map lower s) = parse_handwriting s.
Proof.
  rewrite !parse_handwriting_eq, sub_separators_lower, sub_non_letters_lower.
  unfold title; now rewrite title_lower.
Qed.

(** Two inputs that differ only in the case of their ASCII letters are
    parsed to the same result. *)
Theorem parse_handwriting_ignores_case s1 s2 :
  map lower s1 = map lower s2 -> parse_handwriting s1 = parse_handwriting s2.
Proof.
  intros H.
  rewrite <- (parse_handwriting_lower s1), <- (parse_handwriting_lower s2).
  now rewrite H.
Qed.

Lemma parse_handwriting_ignores_case_witness :
  map lower (codes "MEAT ball") = map lower (codes "meat BALL")
  /\ parse_handwriting (codes "MEAT ball") = parse_handwriting (codes "meat BALL").
Proof.
  split; [reflexivity|].
  exact (parse_handwriting_ignores_case (codes "MEAT ball") (codes "meat BALL") eq_refl).
Defined.

Lemma no_letters_iff s :
  filter is_letter s = [] <-> forall c, In c s -> is_letter c = false.
Proof.
  split.
  - intros Hf c Hin; destruct (is_letter c) eqn:Hl; [|reflexivity].
    assert (Hc : In c (filter is_letter s)) by (apply filter_In; auto).
    rewrite Hf in Hc; contradiction.
  - intros Hno; destruct (filter is_letter s) as [|c l] eqn:Hf; [reflexivity|].
    assert (Hc : In c (filter is_letter s)) by (rewrite Hf; now left).
    apply filter_In in Hc as [Hin Hl].
    rewrite (Hno c Hin) in Hl; discriminate.
Qed.

(** [/parse] answers 400 with the text 'Invalid recipe name' exactly when
    the request has no ['input'] or one without an ASCII letter; otherwise
    it answers 200 with a message that is a well-formed name, one that
    [parse_handwriting] would return unchanged. *)
Theorem parse_answers input :
  (parse input = (Text "Invalid recipe name", 400)
   <-> forall s, input = Some s -> forall c, In c s -> is_letter c = false)
  /\ (forall body status, parse input = (body, status) ->
        (body = Text "Invalid recipe name" /\ status = 400)
        \/ (exists r, body = Msg r /\ status = 200 /\ Name false r
                      /\ parse_handwriting r = Some r)).
Proof.
  assert (Hnone : parse_handwriting [] = None) by reflexivity.
  unfold parse; destruct input as [s|]; [|rewrite Hnone].
  - destruct (parse_handwriting s) as [r|] eqn:Hparse; split.
    + split; [discriminate|]; intros Hno; exfalso.
      pose proof (Hno s eq_refl) as Hs.
      apply no_letters_iff, parse_handwriting_None in Hs; congruence.
    + intros body status H; injection H as <- <-; right.
      exists r; repeat split; eauto using Name_parse, parse_handwriting_Name.
    + split; [|reflexivity]; intros _ s' E; injection E as <-.
      now apply no_letters_iff, parse_handwriting_None.
    + intros body status H; injection H as <- <-; now left.
  - split.
    + split; [intros _ s E; discriminate | reflexivity].
    + intros body status H; injection H as <- <-; now left.
Qed.

(* ===================================================================== *)
(** ** Recipes made of ingredients only *)
(* ===================================================================== *)

Lemma dict_get_app {V : Type} k (d1 d2 : dict V) :
  dict_get k (d1 ++ d2)
  = match dict_get k d1 with
    | Some v => Some v
    | None => dict_get k d2
    end.
Proof.
  induction d1 as [|[k' v'] d1 IH]; simpl; [reflexivity|].
  destruct (k' =? k)%string; [reflexivity | exact IH].
Qed.

Lemma dict_set_app_r {V : Type} k (v : V) (d1 d2 : dict V) :
  dict_get k d1 = None -> dict_set k v (d1 ++ d2) = d1 ++ dict_set k v d2.
Proof.
  induction d1 as [|[k' v'] d1 IH]; simpl; [reflexivity|].
  destruct (k' =? k)%string; [discriminate|].
  intros H; now rewrite IH.
Qed.

Lemma keys_pending items : keys (pending items) = map item_name items.
Proof. unfold keys, pending; rewrite map_map; reflexivity. Qed.

Lemma keys_settled cookbook items :
  keys (settled cookbook items) = map item_name items.
Proof. unfold keys, settled; rewrite map_map; reflexivity. Qed.

(** Items with fresh, distinct names are appended in their order. *)
Lemma add_all_fresh items : forall d,
  NoDup (map item_name items) ->
  (forall item, In item items -> ~ In (item_name item) (keys d)) ->
  fold_left (add_to_ingredients 1) items d = d ++ pending items.
Proof.
  induction items as [|item items IH]; intros d Hnd Hfresh; cbn [fold_left].
  - simpl; now rewrite app_nil_r.
  - inversion Hnd as [|? ? Hnotin Hnd']; subst.
    assert (Hget : dict_get (item_name item) d = None)
      by (apply dict_get_None, Hfresh; now left).
    assert (Hadd : add_to_ingredients 1 d item
                   = d ++ pending [item]).
    { unfold add_to_ingredients, add_required_item; cbn [snd].
      now rewrite Hget, (dict_set_new _ _ _ Hget), Z.mul_1_l. }
    rewrite Hadd, IH; [now rewrite <- app_assoc| exact Hnd' |].
    intros it Hit Hin.
    unfold keys in Hin; rewrite map_app in Hin; apply in_app_or in Hin as [Hin|Hin].
    + now apply (Hfresh it (or_intror Hit)).
    + destruct Hin as [Heq|[]]; simpl in Heq.
      apply Hnotin; rewrite Heq; now apply in_map.
Qed.

(** Popping the names of leaves one by one fills in their cook times and
    changes nothing else. *)
Lemma settle_leaves cookbook rest : forall done,
  NoDup (map item_name (done ++ rest)) ->
  (forall item, In item rest -> is_leaf cookbook (item_name item)) ->
  while_queue (length rest) cookbook (map item_name rest)
    (settled cookbook done ++ pending rest)
  = Some (inl (settled cookbook (done ++ rest))).
Proof.
  induction rest as [|item rest IH]; intros done Hnd Hleaf.
  - simpl; now rewrite !app_nil_r.
  - cbn [length map]; rewrite while_queue_step.
    assert (Hfresh : dict_get (item_name item) (settled cookbook done) = None).
    { apply dict_get_None; rewrite keys_settled.
      rewrite map_app in Hnd; apply NoDup_remove_2 in Hnd.
      intros Hin; apply Hnd, in_or_app; now left. }
    assert (Hslot : dict_get (item_name item)
                      (settled cookbook done ++ pending (item :: rest))
                    = Some {| quantity := item_quantity item; unit_cook_time := 0 |}).
    { rewrite dict_get_app, Hfresh; simpl; now rewrite String.eqb_refl. }
    assert (Hnext : loop_body cookbook (item_name item) (map item_name rest)
                      (settled cookbook done ++ pending (item :: rest))
                    = Continue (map item_name rest)
                        (settled cookbook (done ++ [item]) ++ pending rest)).
    { destruct (Hleaf item (or_introl eq_refl)) as (e & He & Ht).
      replace (settled cookbook (done ++ [item]) ++ pending rest)
        with (settled cookbook done
              ++ (item_name item,
                  {| quantity := item_quantity item;
                     unit_cook_time := unit_time cookbook (item_name item) |})
                 :: pending rest)
        by (unfold settled; rewrite map_app, <- app_assoc; reflexivity).
      destruct (string_dec (type e) "ingredient") as [Hi|Hi].
      - rewrite (loop_body_ingredient _ _ _ _ _ He Hi), Hslot.
        rewrite (dict_set_app_r _ _ _ _ Hfresh).
        change (pending (item :: rest))
          with ((item_name item,
                 {| quantity := item_quantity item; unit_cook_time := 0 |})
                :: pending rest).
        cbn [dict_set quantity]; rewrite String.eqb_refl.
        now rewrite (unit_time_ingredient _ _ _ He Hi).
      - rewrite (loop_body_other _ _ _ _ _ He Ht Hi).
        now rewrite (unit_time_other _ _ _ He Hi). }
    rewrite Hnext, IH.
    + now rewrite <- app_assoc.
    + now rewrite <- app_assoc.
    + intros it Hit; apply Hleaf; now right.
Qed.

Lemma ingredients_list_of_settled cookbook items :
  ingredients_list_of (settled cookbook items) = map item_pair items.
Proof. unfold ingredients_list_of, settled; rewrite map_map; reflexivity. Qed.

(** A recipe whose required items have distinct names, none of them a
    recipe, is summarised as exactly these items, in their order and with
    their quantities; its cook time is the sum of quantity times unit cook
    time.  One iteration per item and one for the recipe are enough. *)
Theorem summary_of_flat_recipe file root e :
  look_for_item root (get_cookbook file) = Some e -> type e = "recipe" ->
  NoDup (map item_name (requiredItems e)) ->
  (forall item, In item (requiredItems e) ->
                is_leaf (get_cookbook file) (item_name item)) ->
  summary (S (length (requiredItems e))) file root
  = Some (Returned (Summary root
                      (weighted_cook_time (get_cookbook file)
                                          (map item_pair (requiredItems e)))
                      (map item_pair (requiredItems e))) 200).
Proof.
  intros He Ht Hnd Hleaf.
  rewrite (summary_recipe _ _ _ _ He Ht), while_queue_step.
  rewrite (loop_body_recipe _ _ _ _ _ He Ht).
  assert (Hinit : dict_remove root (initial_ingredients root) = [])
    by (unfold initial_ingredients; simpl; now rewrite String.eqb_refl).
  assert (Hqty : qty root (initial_ingredients root) = 1)
    by (unfold qty, initial_ingredients; simpl; now rewrite String.eqb_refl).
  rewrite Hinit, Hqty, add_all_fresh by (auto; intros item _ []).
  simpl app.
  pose proof (settle_leaves (get_cookbook file) (requiredItems e) [] Hnd Hleaf) as Hrun.
  simpl in Hrun; rewrite Hrun.
  rewrite (total_cooktime_weighted (get_cookbook file)), ingredients_list_of_settled;
    [reflexivity|].
  intros n slot Hin; unfold settled in Hin.
  apply in_map_iff in Hin as (item & Heq & _); now injection Heq as <- <-.
Qed.

Lemma summary_of_flat_recipe_witness :
  look_for_item "Pancake" (get_cookbook pancake_catalog)
  = Some (recipe "Pancake" [("Flour", 1); ("Milk", 2)])
  /\ summary 3 pancake_catalog "Pancake"
     = Some (Returned (Summary "Pancake" 5 [("Flour", 1); ("Milk", 2)]) 200).
Proof.
  split; [reflexivity|].
  refine (summary_of_flat_recipe pancake_catalog "Pancake"
            (recipe "Pancake" [("Flour", 1); ("Milk", 2)]) eq_refl eq_refl _ _).
  - simpl; repeat constructor; simpl; intuition discriminate.
  - intros item [<-|[<-|[]]]; simpl;
      [exists (ingredient "Flour" 3) | exists (ingredient "Milk" 1)];
      split; try reflexivity; discriminate.
Defined.
